(** * Interpreter code generation helpers of nidaqmx-python

    A shallow embedding of [src/codegen/utilities/interpreter_helpers.py]:
    the helpers the interpreter templates call to choose a call template,
    to build the argument list of the C call, and to instantiate and
    return the output values.

    Python strings are [string]s over code points 0..255, lists are [list]s,
    the dictionary [size_values] is a [gmap], a loop that appends to a list
    is a [fold_left] over the iterated sequence that threads the list. *)

From Stdlib Require Import Ascii String NArith OrderedTypeEx.
From stdpp Require Import base tactics option list gmap strings sorting.

(** ** Data model

    The classes [Parameter] and [Function] live in modules that this file
    only imports; their attributes are taken as record fields, under the
    names the helpers read them by. *)

(** [param.size]: read only under the guard [param.has_explicit_buffer_size]. *)
Record ParameterSize := {
  mechanism : string;
  value : string;
}.

Record FunctionParameter := {
  parameter_name : string;
  direction : string;
  type : string;
  ctypes_data_type : string;
  has_explicit_buffer_size : bool;
  size : ParameterSize;
  is_list : bool;
  repeating_argument : bool;
}.

Record Function := {
  stream_response : bool;
  is_init_method : bool;
  parameters : list FunctionParameter;
  base_parameters : list FunctionParameter;
  interpreter_parameters : list FunctionParameter;
  output_parameters : list FunctionParameter;
}.

(** [collections.namedtuple("SizeParameter", ["name", "size"])]. *)
Module SizeParameter.
Record t := mk { name : string; size : string }.
End SizeParameter.

(** Exceptions the helpers raise explicitly, and the outcome of a call. *)
Inductive exn :=
  | NotImplementedError (offending : list FunctionParameter).

Inductive outcome (A : Type) :=
  | Return (a : A)
  | Raise (e : exn).
Arguments Return {A} a.
Arguments Raise {A} e.

Definition bind {A B} (m : outcome A) (k : A → outcome B) : outcome B :=
  match m with
  | Return a => k a
  | Raise e => Raise e
  end.

Notation "x <~ m ;; k" := (bind m (fun x => k))
  (at level 100, m at next level, right associativity).

(** [any(xs)] on a list of objects without [__bool__]/[__len__]: every
    element is truthy, so the test is whether the list has an element. *)
Definition any {A} (xs : list A) : bool :=
  match xs with
  | [] => false
  | _ :: _ => true
  end.

(** ** Parameter selections *)

Definition get_varargs_parameters (func : Function) : list FunctionParameter :=
  filter (λ p, repeating_argument p = true) (parameters func).

Definition get_interpreter_output_params (func : Function) : list FunctionParameter :=
  filter (λ p, direction p = "out") (interpreter_parameters func).

Definition get_output_params (func : Function) : list FunctionParameter :=
  filter (λ p, direction p = "out") (base_parameters func).

(** ** Return values *)

Definition get_return_values (func : Function) : list string :=
  fold_left
    (λ return_values param,
       if repeating_argument param then
         return_values ++
           ["[" +:+ parameter_name param +:+ "_element.value for " +:+
            parameter_name param +:+ "_element in " +:+ parameter_name param +:+ "]"]
       else if decide (ctypes_data_type param = "ctypes.c_char_p") then
         return_values ++ [parameter_name param +:+ ".value.decode('ascii')"]
       else if is_list param then
         return_values ++ [parameter_name param +:+ ".tolist()"]
       else if decide (type param = "TaskHandle") then
         return_values ++ [parameter_name param]
       else
         return_values ++ [parameter_name param +:+ ".value"])
    (get_interpreter_output_params func) [].

(** ** Instantiation of outputs *)

Definition get_instantiation_lines_for_output (func : Function) : list string :=
  let instantiation_lines :=
    if is_init_method func then ["task = lib_importer.task_handle(0)"] else [] in
  fold_left
    (λ instantiation_lines param,
       if decide (parameter_name param = "task") then
         instantiation_lines
       else if repeating_argument param then
         instantiation_lines ++ [parameter_name param +:+ " = []"]
       else if has_explicit_buffer_size param then
         if (bool_decide (mechanism (size param) = "passed-in")
             || bool_decide (mechanism (size param) = "passed-in-by-ptr"))
            && is_list param then
           instantiation_lines ++
             [parameter_name param +:+ " = numpy.zeros(" +:+ value (size param) +:+
              ", dtype=" +:+ ctypes_data_type param +:+ ")"]
         else if decide (mechanism (size param) = "custom-code") then
           (instantiation_lines ++ ["size = " +:+ value (size param)]) ++
             [parameter_name param +:+ " = numpy.zeros(size, dtype=" +:+
              ctypes_data_type param +:+ ")"]
         else
           instantiation_lines
       else
         instantiation_lines ++
           [parameter_name param +:+ " = " +:+ ctypes_data_type param +:+ "()"])
    (get_interpreter_output_params func) instantiation_lines.

(** ** Variable-argument calls *)

Definition get_instantiation_lines_for_varargs (func : Function) : list string :=
  if any (get_varargs_parameters func) then
    fold_left
      (λ instantiation_lines param,
         (instantiation_lines ++
            [parameter_name param +:+ "_element = " +:+ ctypes_data_type param +:+ "()"]) ++
           [parameter_name param +:+ ".append(" +:+ parameter_name param +:+ "_element)"])
      (output_parameters func) []
  else [].

Section varargs.
(** [codegen.utilities.function_helpers.to_param_argtype] is imported, not
    defined, by this file: the native type tag of a parameter. *)
Variable to_param_argtype : FunctionParameter → string.

Definition get_argument_definition_lines_for_varargs
    (varargs_params : list FunctionParameter) : list string :=
  fold_left
    (λ argument_definition_lines param,
       let argtype := to_param_argtype param in
       let argument_definition_lines :=
         if decide (direction param = "in") then
           argument_definition_lines ++
             ["args.append(" +:+ parameter_name param +:+ "[index])"]
         else
           argument_definition_lines ++
             ["args.append(ctypes.byref(" +:+ parameter_name param +:+ "_element))"] in
       (argument_definition_lines ++ ["argtypes.append(" +:+ argtype +:+ ")"]) ++ [""])
    varargs_params [].
End varargs.

(** ** Arguments of the C call *)

(** First loop of [generate_interpreter_function_call_args]: the dictionary
    [size_values], keyed by [param.size.value]; a later assignment to a key
    replaces the earlier one. *)
Definition size_values_of (params : list FunctionParameter) : gmap string SizeParameter.t :=
  fold_left
    (λ (size_values : gmap string SizeParameter.t) param,
       if has_explicit_buffer_size param then
         if decide (direction param = "in") then
           <[value (size param) :=
               SizeParameter.mk (parameter_name param)
                 ("len(" +:+ parameter_name param +:+ ")")]> size_values
         else if decide (direction param = "out") then
           if decide (mechanism (size param) = "ivi-dance") then
             <[value (size param) :=
                 SizeParameter.mk (parameter_name param) "temp_size"]> size_values
           else size_values
         else size_values
       else size_values)
    params ∅.

Definition generate_interpreter_function_call_args (function_metadata : Function)
    : list string :=
  let size_values := size_values_of (interpreter_parameters function_metadata) in
  fold_left
    (λ function_call_args param,
       let function_call_args :=
         if decide (direction param = "in") then
           function_call_args ++ [parameter_name param]
         else if decide (direction param = "out") then
           if has_explicit_buffer_size param then
             function_call_args ++ [parameter_name param]
           else
             function_call_args ++ ["ctypes.byref(" +:+ parameter_name param +:+ ")"]
         else function_call_args in
       if has_explicit_buffer_size param then
         match size_values !! value (size param) with
         | Some size_parameter =>
             if decide (parameter_name param = SizeParameter.name size_parameter) then
               function_call_args ++ [SizeParameter.size size_parameter]
             else function_call_args
         | None => function_call_args
         end
       else function_call_args)
    (interpreter_parameters function_metadata) [].

(** ** Call template *)

Definition get_output_param_with_ivi_dance_mechanism (func : Function)
    : outcome (option FunctionParameter) :=
  let output_parameters := get_output_params func in
  let explicit_output_params :=
    filter (λ p, has_explicit_buffer_size p = true) output_parameters in
  let params_with_ivi_dance_mechanism :=
    filter (λ p, mechanism (size p) = "ivi-dance") explicit_output_params in
  if decide (1 < length params_with_ivi_dance_mechanism) then
    Raise (NotImplementedError params_with_ivi_dance_mechanism)
  else if decide (length params_with_ivi_dance_mechanism = 1) then
    Return (params_with_ivi_dance_mechanism !! 0)
  else Return None.

Definition has_parameter_with_ivi_dance_size_mechanism (func : Function) : outcome bool :=
  parameter_with_size_buffer <~ get_output_param_with_ivi_dance_mechanism func ;;
  Return (bool_decide (parameter_with_size_buffer ≠ None)).

Definition get_c_function_call_template (func : Function) : outcome string :=
  if stream_response func then
    Return "/event_function_call.py.mako"
  else if any (get_varargs_parameters func) then
    Return "/exec_cdecl_c_function_call.py.mako"
  else
    ivi_dance <~ has_parameter_with_ivi_dance_size_mechanism func ;;
    if ivi_dance : bool then Return "/double_c_function_call.py.mako"
    else Return "/default_c_function_call.py.mako".

(** ** Python built-ins on strings and lists *)

Definition in_range (lo hi c : ascii) : bool :=
  (N_of_ascii lo <=? N_of_ascii c)%N && (N_of_ascii c <=? N_of_ascii hi)%N.

Definition is_digit (c : ascii) : bool := in_range "0" "9" c.
Definition is_upper (c : ascii) : bool := in_range "A" "Z" c.
Definition is_lower (c : ascii) : bool := in_range "a" "z" c.

(** [str.lower()] on code points 0..255: A-Z, and the upper-case letters of
    Latin-1 (U+00C0..U+00DE without the sign U+00D7), move up by 32. *)
Definition lower_char (c : ascii) : ascii :=
  if is_upper c
     || (in_range (ascii_of_N 192) (ascii_of_N 222) c
         && negb (Ascii.eqb c (ascii_of_N 215)))
  then ascii_of_N (N_of_ascii c + 32)
  else c.

Fixpoint str_lower (s : string) : string :=
  match s with
  | EmptyString => EmptyString
  | String c s' => String (lower_char c) (str_lower s')
  end.

(** [s.startswith(p)]. *)
Fixpoint startswith (p s : string) : bool :=
  match p, s with
  | EmptyString, _ => true
  | String a p', String b s' => Ascii.eqb a b && startswith p' s'
  | String _ _, EmptyString => false
  end.

(** [s.replace(old, new)]: occurrences of [old] are found from the left and
    do not overlap; [skip] counts the characters of the occurrence being
    replaced that are still to be passed over. *)
Fixpoint replace_from (old new : string) (skip : nat) (s : string) : string :=
  match s with
  | EmptyString => EmptyString
  | String c s' =>
      match skip with
      | S k => replace_from old new k s'
      | O =>
          if startswith old s
          then new +:+ replace_from old new (String.length old - 1) s'
          else String c (replace_from old new 0 s')
      end
  end.

Fixpoint interleave (new s : string) : string :=
  match s with
  | EmptyString => new
  | String c s' => new +:+ String c (interleave new s')
  end.

Definition str_replace (old new s : string) : string :=
  match old with
  | EmptyString => interleave new s
  | String _ _ => replace_from old new 0 s
  end.

(** [sorted(xs, key=...)] on string keys: a stable sort by [<] on code
    points; the insertion places an element before the first one of the
    sorted tail that is not smaller, so equal keys keep their order. *)
Section sorted.
Context {A : Type} (key : A → string).

Fixpoint insert_sorted (x : A) (l : list A) : list A :=
  match l with
  | [] => [x]
  | y :: l' =>
      if String.ltb (key y) (key x) then y :: insert_sorted x l'
      else x :: y :: l'
  end.

Definition sorted (l : list A) : list A := foldr insert_sorted [] l.
End sorted.

(** ** Regular expressions of two groups

    The patterns of this file are two capture groups, each a sequence of
    character classes, the last of which may carry [+].  A [+] is matched
    greedily and, being last in its pattern, never has to give characters
    back. *)
Inductive atom :=
  | Chr (cls : ascii → bool)
  | ChrPlus (cls : ascii → bool).

Record regex := Regex { group1 : list atom; group2 : list atom }.

Fixpoint span (cls : ascii → bool) (s : string) : string * string :=
  match s with
  | EmptyString => (EmptyString, EmptyString)
  | String c s' =>
      if cls c then let '(m, rest) := span cls s' in (String c m, rest)
      else (EmptyString, s)
  end.

(** Matches a sequence of atoms at the start of [s]: the matched text and
    what follows it. *)
Fixpoint match_atoms (atoms : list atom) (s : string) : option (string * string) :=
  match atoms with
  | [] => Some (EmptyString, s)
  | Chr cls :: atoms' =>
      match s with
      | String c s' =>
          if cls c then
            '(m, rest) ← match_atoms atoms' s'; Some (String c m, rest)
          else None
      | EmptyString => None
      end
  | ChrPlus cls :: atoms' =>
      match s with
      | String c s' =>
          if cls c then
            let '(run, after) := span cls s' in
            '(m, rest) ← match_atoms atoms' after; Some (String c (run +:+ m), rest)
          else None
      | EmptyString => None
      end
  end.

(** [regex.match(s)]: the two groups of a match at the start of [s]. *)
Definition match_at (r : regex) (s : string) : option (string * string) :=
  '(g1, rest) ← match_atoms (group1 r) s;
  '(g2, _) ← match_atoms (group2 r) rest;
  Some (g1, g2).

(** [regex.sub(r"\1_\2", s)]: matches are found from the left and do not
    overlap; [skip] counts the characters of the current match still to be
    passed over. *)
Fixpoint sub_from (r : regex) (skip : nat) (s : string) : string :=
  match s with
  | EmptyString => EmptyString
  | String c s' =>
      match skip with
      | S k => sub_from r k s'
      | O =>
          match match_at r s with
          | Some (g1, g2) =>
              (g1 +:+ "_" +:+ g2) +:+
                sub_from r (String.length g1 + String.length g2 - 1) s'
          | None => String c (sub_from r 0 s')
          end
      end
  end.

Definition re_sub (r : regex) (s : string) : string := sub_from r 0 s.

(** ** Name normalization *)

Definition not_underscore_newline (c : ascii) : bool :=
  negb (Ascii.eqb c "_" || Ascii.eqb c (ascii_of_N 10)).

Definition not_underscore_digit (c : ascii) : bool :=
  negb (Ascii.eqb c "_" || is_digit c).

(** This custom regex list doesn't split the string before the number. *)
Definition INTERPRETER_CAMEL_TO_SNAKE_CASE_REGEXES : list regex :=
  [ (* ([^_\n])([A-Z][a-z]+) *)
    Regex [Chr not_underscore_newline] [Chr is_upper; ChrPlus is_lower];
    (* ([a-z])([A-Z]) *)
    Regex [Chr is_lower] [Chr is_upper];
    (* ([0-9])([^_0-9]) *)
    Regex [Chr is_digit] [Chr not_underscore_digit] ].

Definition INTERPRETER_IGNORED_FUNCTIONS : list string :=
  [ "GetExtendedErrorInfo";
    "GetArmStartTrigTimestampVal";
    "GetFirstSampTimestampVal";
    "GetRefTrigTimestampVal";
    "GetStartTrigTimestampVal";
    "GetTimingAttributeExTimestamp";
    "GetTimingAttributeTimestamp";
    "GetTrigAttributeTimestamp";
    "SetTimingAttributeExTimestamp";
    "SetTimingAttributeTimestamp";
    "SetTrigAttributeTimestamp";
    "GetArmStartTrigTrigWhen";
    "GetFirstSampClkWhen";
    "GetStartTrigTrigWhen";
    "GetSyncPulseTimeWhen";
    "SetArmStartTrigTrigWhen";
    "SetFirstSampClkWhen";
    "SetStartTrigTrigWhen";
    "SetSyncPulseTimeWhen" ].

Definition LIBRARY_INTERPRETER_IGNORED_FUNCTIONS : list string :=
  [ "RegisterSignalEvent";
    "RegisterEveryNSamplesEvent";
    "RegisterDoneEvent" ].

(** ** Metadata ingestion

    The scrapigen metadata: dictionaries, typed by the keys this file reads.
    [functions] is a dictionary in insertion order, kept as the list of its
    items. *)
Module Meta.
Record size_dict := {
  mechanism : option string;
  value : option string;
}.

Record param := {
  name : string;
  size : option size_dict;
  include_in_proto : option bool;
}.

Record function_data := {
  c_function_name : option string;
  parameters : list param;
}.

Record metadata := { functions : list (string * function_data) }.
End Meta.

(** [dict.get(key, default)]. *)
Definition get {A} (entry : option A) (default : A) : A :=
  match entry with
  | Some a => a
  | None => default
  end.

Definition is_skippable_param (param : Meta.param) : bool :=
  let ignored_params := ["size"; "reserved"] in
  if negb (get (Meta.include_in_proto param) true)
     && bool_decide (Meta.name param ∈ ignored_params)
  then true
  else false.

(** The collected names may hold [None], what [size.get("value")] gives for
    a size dictionary without that key. *)
Definition get_skippable_params_for_interpreter_func (func : Meta.function_data)
    : list (option string) :=
  let ignored_mechanisms := [Some "ivi-dance"] in
  fold_left
    (λ skippable_params param,
       let size := get (Meta.size param) {| Meta.mechanism := None; Meta.value := None |} in
       let skippable_params :=
         if decide (Meta.mechanism size ∈ ignored_mechanisms)
         then skippable_params ++ [Meta.value size]
         else skippable_params in
       if is_skippable_param param
       then skippable_params ++ [Some (Meta.name param)]
       else skippable_params)
    (Meta.parameters func) [].

(** Modelled from the spec: the class [Function] is imported, not defined,
    by this file.  By the data model a function holds its normalized name,
    its native name and its parameters; the object built by
    [Function(function_name, function_data)] is kept as these two arguments,
    [x._function_name] being the first. *)
Record IngestedFunction := {
  _function_name : string;
  function_data : Meta.function_data;
}.

Section ingestion.
(** [codegen.utilities.helpers.camel_to_snake_case] is imported, not
    defined, by this file. *)
Variable camel_to_snake_case : string → list regex → string.

(** [get_interpreter_functions], lines 54-55. *)
Definition normalized_function_name (function_name : string) : string :=
  let function_name :=
    camel_to_snake_case function_name INTERPRETER_CAMEL_TO_SNAKE_CASE_REGEXES in
  str_replace "_u_int" "_uint" function_name.

(** The generator assigned to [function_data["parameters"]] is consumed by
    the constructor it is handed to, inside the same iteration; it is
    kept as the list it yields. *)
Definition get_interpreter_functions (metadata : Meta.metadata)
    : list IngestedFunction :=
  let all_functions := Meta.functions metadata in
  let functions_metadata :=
    fold_left
      (λ functions_metadata '(function_name, function_data),
         if decide (function_name ∈ INTERPRETER_IGNORED_FUNCTIONS) then
           functions_metadata
         else
           let function_data :=
             {| Meta.c_function_name := Some function_name;
                Meta.parameters := Meta.parameters function_data |} in
           let function_name := normalized_function_name function_name in
           let skippable_params :=
             get_skippable_params_for_interpreter_func function_data in
           let function_data :=
             {| Meta.c_function_name := Meta.c_function_name function_data;
                Meta.parameters :=
                  filter (λ p, Some (Meta.name p) ∉ skippable_params)
                    (Meta.parameters function_data) |} in
           functions_metadata ++
             [ {| _function_name := function_name; function_data := function_data |} ])
      all_functions [] in
  sorted _function_name functions_metadata.
End ingestion.

(** Modelled from the spec: [camel_to_snake_case] of [codegen.utilities.helpers]
    is imported, not defined, by this file.  It renames a mixed-case native
    name to the host convention through the rule set it is given: every rule
    is applied in turn to the whole name, a separator [_] goes between the two
    groups of each match, and the result is lower-cased. *)
Definition camel_to_snake_case (camel_case_string : string) (regexes : list regex)
    : string :=
  str_lower (fold_left (λ partial regex, re_sub regex partial) regexes camel_case_string).

(** The normalized name of [get_interpreter_functions] under that helper. *)
Definition interpreter_function_name (function_name : string) : string :=
  normalized_function_name camel_to_snake_case function_name.

(** ** The policies the helpers are read against

    Stated per parameter, each case with the cases that take precedence over
    it excluded. *)

(** Post-call return expression of an output parameter. *)
Inductive return_policy (p : FunctionParameter) : string → Prop :=
  | return_repeating :
      repeating_argument p = true →
      return_policy p
        ("[" +:+ parameter_name p +:+ "_element.value for " +:+
         parameter_name p +:+ "_element in " +:+ parameter_name p +:+ "]")
  | return_text :
      repeating_argument p = false →
      ctypes_data_type p = "ctypes.c_char_p" →
      return_policy p (parameter_name p +:+ ".value.decode('ascii')")
  | return_buffer :
      repeating_argument p = false →
      ctypes_data_type p ≠ "ctypes.c_char_p" →
      is_list p = true →
      return_policy p (parameter_name p +:+ ".tolist()")
  | return_task_handle :
      repeating_argument p = false →
      ctypes_data_type p ≠ "ctypes.c_char_p" →
      is_list p = false →
      type p = "TaskHandle" →
      return_policy p (parameter_name p)
  | return_scalar :
      repeating_argument p = false →
      ctypes_data_type p ≠ "ctypes.c_char_p" →
      is_list p = false →
      type p ≠ "TaskHandle" →
      return_policy p (parameter_name p +:+ ".value").

(** Pre-call instantiation statements of an output parameter that is not
    named [task]. *)
Inductive instantiation_policy (p : FunctionParameter) : list string → Prop :=
  | instantiate_repeating :
      repeating_argument p = true →
      instantiation_policy p [parameter_name p +:+ " = []"]
  | instantiate_passed_in :
      repeating_argument p = false →
      has_explicit_buffer_size p = true →
      mechanism (size p) = "passed-in" ∨ mechanism (size p) = "passed-in-by-ptr" →
      is_list p = true →
      instantiation_policy p
        [parameter_name p +:+ " = numpy.zeros(" +:+ value (size p) +:+
         ", dtype=" +:+ ctypes_data_type p +:+ ")"]
  | instantiate_custom_code :
      repeating_argument p = false →
      has_explicit_buffer_size p = true →
      mechanism (size p) = "custom-code" →
      instantiation_policy p
        ["size = " +:+ value (size p);
         parameter_name p +:+ " = numpy.zeros(size, dtype=" +:+ ctypes_data_type p +:+ ")"]
  | instantiate_nothing :
      repeating_argument p = false →
      has_explicit_buffer_size p = true →
      mechanism (size p) ≠ "custom-code" →
      ¬ ((mechanism (size p) = "passed-in" ∨ mechanism (size p) = "passed-in-by-ptr")
         ∧ is_list p = true) →
      instantiation_policy p []
  | instantiate_scalar :
      repeating_argument p = false →
      has_explicit_buffer_size p = false →
      instantiation_policy p
        [parameter_name p +:+ " = " +:+ ctypes_data_type p +:+ "()"].

(** The return expression of an output parameter, as a function. *)
Definition return_expression (p : FunctionParameter) : string :=
  if repeating_argument p then
    "[" +:+ parameter_name p +:+ "_element.value for " +:+
    parameter_name p +:+ "_element in " +:+ parameter_name p +:+ "]"
  else if decide (ctypes_data_type p = "ctypes.c_char_p") then
    parameter_name p +:+ ".value.decode('ascii')"
  else if is_list p then parameter_name p +:+ ".tolist()"
  else if decide (type p = "TaskHandle") then parameter_name p
  else parameter_name p +:+ ".value".

(** The instantiation statements of an output parameter, as a function. *)
Definition instantiation_lines_of (p : FunctionParameter) : list string :=
  if repeating_argument p then [parameter_name p +:+ " = []"]
  else if has_explicit_buffer_size p then
    if decide ((mechanism (size p) = "passed-in" ∨ mechanism (size p) = "passed-in-by-ptr")
               ∧ is_list p = true)
    then [parameter_name p +:+ " = numpy.zeros(" +:+ value (size p) +:+
          ", dtype=" +:+ ctypes_data_type p +:+ ")"]
    else if decide (mechanism (size p) = "custom-code")
    then ["size = " +:+ value (size p);
          parameter_name p +:+ " = numpy.zeros(size, dtype=" +:+ ctypes_data_type p +:+ ")"]
    else []
  else [parameter_name p +:+ " = " +:+ ctypes_data_type p +:+ "()"].

(** The statement a task-creation entry point starts with. *)
Definition task_handle_line : string := "task = lib_importer.task_handle(0)".

(** A function with its output parameters named [task] taken out of the
    interpreter parameters. *)
Definition without_task_outputs (func : Function) : Function :=
  {| stream_response := stream_response func;
     is_init_method := is_init_method func;
     parameters := parameters func;
     base_parameters := base_parameters func;
     interpreter_parameters :=
       filter (λ p, ¬ (direction p = "out" ∧ parameter_name p = "task"))
         (interpreter_parameters func);
     output_parameters := output_parameters func |}.

(** The output parameters with an explicit buffer size that follow the
    ivi-dance mechanism. *)
Definition ivi_dance_outputs (func : Function) : list FunctionParameter :=
  filter
    (λ p, direction p = "out" ∧ has_explicit_buffer_size p = true
          ∧ mechanism (size p) = "ivi-dance")
    (base_parameters func).

(** Lines that append to the argument list, and to the type-tag list. *)
Definition is_args_append (line : string) : bool := startswith "args.append(" line.
Definition is_argtypes_append (line : string) : bool := startswith "argtypes.append(" line.

(** The three lines a vararg parameter contributes. *)
Definition vararg_lines (argtype : string) (p : FunctionParameter) : list string :=
  [ (if decide (direction p = "in")
     then "args.append(" +:+ parameter_name p +:+ "[index])"
     else "args.append(ctypes.byref(" +:+ parameter_name p +:+ "_element))");
    "argtypes.append(" +:+ argtype +:+ ")";
    "" ].

(** The element of an output parameter of a vararg call and its append to
    the sequence the return values are collected from. *)
Definition vararg_element_lines (p : FunctionParameter) : list string :=
  [ parameter_name p +:+ "_element = " +:+ ctypes_data_type p +:+ "()";
    parameter_name p +:+ ".append(" +:+ parameter_name p +:+ "_element)" ].


(** ** Call arguments, per parameter *)

(** A parameter records a size: the condition under which the first loop
    of [generate_interpreter_function_call_args] assigns to [size_values]. *)
Definition records_size (q : FunctionParameter) : Prop :=
  has_explicit_buffer_size q = true
  ∧ (direction q = "in" ∨ (direction q = "out" ∧ mechanism (size q) = "ivi-dance")).

(** The parameter recorded for a size slot once the first loop is over:
    the last, in declared order, of those that record a size for it. *)
Definition recorded_supplier (params : list FunctionParameter) (slot : string)
    : option FunctionParameter :=
  last (filter (λ q, records_size q ∧ value (size q) = slot) params).

Definition size_expression (q : FunctionParameter) : string :=
  if decide (direction q = "in") then "len(" +:+ parameter_name q +:+ ")"
  else "temp_size".

(** How a parameter itself is passed. *)
Inductive passed_as (p : FunctionParameter) : list string → Prop :=
  | passed_in :
      direction p = "in" → passed_as p [parameter_name p]
  | passed_out_buffer :
      direction p = "out" → has_explicit_buffer_size p = true →
      passed_as p [parameter_name p]
  | passed_out_by_reference :
      direction p = "out" → has_explicit_buffer_size p = false →
      passed_as p ["ctypes.byref(" +:+ parameter_name p +:+ ")"]
  | passed_not :
      direction p ≠ "in" → direction p ≠ "out" → passed_as p [].

(** What follows a parameter: the size expression, when the parameter has
    an explicit buffer size and carries the name of the parameter recorded
    for its size slot. *)
Inductive followed_by (params : list FunctionParameter) (p : FunctionParameter)
    : list string → Prop :=
  | followed_by_len q :
      has_explicit_buffer_size p = true →
      recorded_supplier params (value (size p)) = Some q →
      parameter_name p = parameter_name q →
      direction q = "in" →
      followed_by params p ["len(" +:+ parameter_name q +:+ ")"]
  | followed_by_temp_size q :
      has_explicit_buffer_size p = true →
      recorded_supplier params (value (size p)) = Some q →
      parameter_name p = parameter_name q →
      direction q = "out" → mechanism (size q) = "ivi-dance" →
      followed_by params p ["temp_size"]
  | followed_by_nothing_other q :
      has_explicit_buffer_size p = true →
      recorded_supplier params (value (size p)) = Some q →
      parameter_name p ≠ parameter_name q →
      followed_by params p []
  | followed_by_nothing_unrecorded :
      has_explicit_buffer_size p = true →
      recorded_supplier params (value (size p)) = None →
      followed_by params p []
  | followed_by_nothing_unsized :
      has_explicit_buffer_size p = false →
      followed_by params p [].

Inductive call_arguments_of (params : list FunctionParameter) (p : FunctionParameter)
    : list string → Prop :=
  | call_arguments_of_intro passed followed :
      passed_as p passed → followed_by params p followed →
      call_arguments_of params p (passed ++ followed).

(** The same, as functions. *)
Definition argument_of (p : FunctionParameter) : list string :=
  if decide (direction p = "in") then [parameter_name p]
  else if decide (direction p = "out") then
    if has_explicit_buffer_size p then [parameter_name p]
    else ["ctypes.byref(" +:+ parameter_name p +:+ ")"]
  else [].

Definition size_argument_after (params : list FunctionParameter) (p : FunctionParameter)
    : list string :=
  if has_explicit_buffer_size p then
    match recorded_supplier params (value (size p)) with
    | Some q =>
        if decide (parameter_name p = parameter_name q) then [size_expression q] else []
    | None => []
    end
  else [].

(** ** Ingestion, per catalog entry *)

(** Ascending order of the normalized names: lexicographic on code points. *)
Definition name_le (x y : IngestedFunction) : Prop :=
  String.leb (_function_name x) (_function_name y) = true.

(** What ingestion makes of a catalog entry it keeps. *)
Definition ingested (camel_to_snake_case : string → list regex → string)
    (item : string * Meta.function_data) : IngestedFunction :=
  {| _function_name := normalized_function_name camel_to_snake_case item.1;
     function_data :=
       {| Meta.c_function_name := Some item.1;
          Meta.parameters :=
            filter
              (λ p, Some (Meta.name p) ∉
                      get_skippable_params_for_interpreter_func
                        {| Meta.c_function_name := Some item.1;
                           Meta.parameters := Meta.parameters item.2 |})
              (Meta.parameters item.2) |} |}.

(** ** Separators and digits *)

Fixpoint all_digits (s : string) : bool :=
  match s with
  | EmptyString => true
  | String c s' => is_digit c && all_digits s'
  end.

(** [separated x y]: [y] is [x] with separators put in, each of them right
    before a character that is not a digit. *)
Inductive separated : string → string → Prop :=
  | separated_nil : separated "" ""
  | separated_keep c x y :
      separated x y → separated (String c x) (String c y)
  | separated_insert c x y :
      is_digit c = false → separated x y →
      separated (String c x) (String "_" (String c y)).

(** [joined x y]: [y] is [x] with separators taken out, each of them right
    before a character that is not a digit. *)
Inductive joined : string → string → Prop :=
  | joined_nil : joined "" ""
  | joined_keep c x y :
      joined x y → joined (String c x) (String c y)
  | joined_remove c x y :
      is_digit c = false → joined (String c x) y →
      joined (String "_" (String c x)) y.

(** The shape of the matches of a pattern whose second group starts with a class without
    digits: the subject is the two groups and a rest, and the second group
    starts with a character that is not a digit. *)
Definition splits_before_non_digit (r : regex) : Prop :=
  ∀ s g1 g2,
    match_at r s = Some (g1, g2) →
    ∃ d g2' rest, g2 = String d g2' ∧ is_digit d = false ∧ s = g1 +:+ g2 +:+ rest.

(** ** Sample functions *)

(** A function that is not a task-creation entry point and has one scalar
    output, named [task]. *)
Definition task_output_only : Function :=
  {| stream_response := false;
     is_init_method := false;
     parameters := [];
     base_parameters := [];
     interpreter_parameters :=
       [ {| parameter_name := "task"; direction := "out"; type := "TaskHandle";
            ctypes_data_type := "lib_importer.task_handle";
            has_explicit_buffer_size := false;
            size := {| mechanism := ""; value := "" |};
            is_list := false; repeating_argument := false |} ];
     output_parameters := [] |}.

(** An output buffer sized by the ivi-dance protocol. *)
Definition ivi_dance_buffer (name size_name : string) : FunctionParameter :=
  {| parameter_name := name; direction := "out"; type := "char[]";
     ctypes_data_type := "ctypes.c_char_p";
     has_explicit_buffer_size := true;
     size := {| mechanism := "ivi-dance"; value := size_name |};
     is_list := false; repeating_argument := false |}.

(** A function that streams its response and has the given ivi-dance
    outputs. *)
Definition streaming_with (outputs : list FunctionParameter) : Function :=
  {| stream_response := true;
     is_init_method := false;
     parameters := outputs;
     base_parameters := outputs;
     interpreter_parameters := outputs;
     output_parameters := outputs |}.

(** The same outputs on a function that neither streams nor takes varargs. *)
Definition plain_with (outputs : list FunctionParameter) : Function :=
  {| stream_response := false;
     is_init_method := false;
     parameters := outputs;
     base_parameters := outputs;
     interpreter_parameters := outputs;
     output_parameters := outputs |}.

(** An input array whose element count is the size slot [size_name]. *)
Definition input_array (name size_name : string) : FunctionParameter :=
  {| parameter_name := name; direction := "in"; type := "const float64[]";
     ctypes_data_type := "numpy.float64";
     has_explicit_buffer_size := true;
     size := {| mechanism := "len"; value := size_name |};
     is_list := true; repeating_argument := false |}.

(** A scalar input. *)
Definition input_scalar (name : string) : FunctionParameter :=
  {| parameter_name := name; direction := "in"; type := "int32";
     ctypes_data_type := "ctypes.c_int";
     has_explicit_buffer_size := false;
     size := {| mechanism := ""; value := "" |};
     is_list := false; repeating_argument := false |}.



(** Two input arrays that share the size slot [arraySize]. *)
Definition two_arrays_one_size : Function :=
  plain_with [input_array "a" "arraySize"; input_array "b" "arraySize"].

(** A catalog with a legacy accessor, an event-registration primitive and
    two ordinary entry points. *)
Definition sample_catalog : Meta.metadata :=
  {| Meta.functions :=
       [ ("StartTask", {| Meta.c_function_name := None; Meta.parameters := [] |});
         ("RegisterDoneEvent", {| Meta.c_function_name := None; Meta.parameters := [] |});
         ("GetFirstSampTimestampVal",
          {| Meta.c_function_name := None; Meta.parameters := [] |});
         ("ReadBinaryUInt32", {| Meta.c_function_name := None; Meta.parameters := [] |}) ] |}.


(** A scalar output. *)
Definition output_scalar (name ctype : string) : FunctionParameter :=
  {| parameter_name := name; direction := "out"; type := "int32";
     ctypes_data_type := ctype;
     has_explicit_buffer_size := false;
     size := {| mechanism := ""; value := "" |};
     is_list := false; repeating_argument := false |}.

(** An output array of [size_name] elements, passed in by the caller. *)
Definition output_array (name size_name : string) : FunctionParameter :=
  {| parameter_name := name; direction := "out"; type := "float64[]";
     ctypes_data_type := "numpy.float64";
     has_explicit_buffer_size := true;
     size := {| mechanism := "passed-in"; value := size_name |};
     is_list := true; repeating_argument := false |}.

(** A task-creation entry point with a task handle, an array and a scalar
    as outputs. *)
Definition create_task_like : Function :=
  {| stream_response := false;
     is_init_method := true;
     parameters := [];
     base_parameters := [];
     interpreter_parameters :=
       [ input_scalar "session_name";
         {| parameter_name := "task"; direction := "out"; type := "TaskHandle";
            ctypes_data_type := "lib_importer.task_handle";
            has_explicit_buffer_size := false;
            size := {| mechanism := ""; value := "" |};
            is_list := false; repeating_argument := false |};
         output_array "read_array" "array_size_in_samps";
         output_scalar "new_session_initialized" "c_bool32" ];
     output_parameters := [] |}.

(** ** Signature, gRPC and compound-parameter helpers

    [", ".join(xs)] is [String.concat ", " xs]. *)

(** [if param.type:] holds for a non-empty string; a parameter without a
    type has the empty string in its [type] field, which is as false as
    [None] and as different from ["TaskHandle"]. *)
Definition get_interpreter_parameter_signature (is_python_factory : bool)
    (params : list FunctionParameter) : string :=
  let params_with_defaults := if negb is_python_factory then ["self"] else [] in
  let params_with_defaults :=
    fold_left
      (λ params_with_defaults param,
         if decide (type param ≠ "") then
           params_with_defaults ++ [parameter_name param]
         else params_with_defaults)
      params params_with_defaults in
  String.concat ", " params_with_defaults.

Definition get_interpreter_params (func : Function) : list FunctionParameter :=
  filter (λ p, direction p = "in") (interpreter_parameters func).

Definition get_response_parameters (output_parameters : list FunctionParameter) : string :=
  let response_parameters :=
    fold_left
      (λ response_parameters parameter,
         if negb (repeating_argument parameter) then
           response_parameters ++ ["response." +:+ parameter_name parameter]
         else response_parameters)
      output_parameters [] in
  String.concat ", " response_parameters.

(** [get_callback_param_data_types]: the parameters are dictionaries here;
    [p["ctypes_data_type"]] on a dictionary without that key raises
    [KeyError], which ends the comprehension: [None]. *)
Definition get_callback_param_data_types (params : list (gmap string string))
    : option (list string) :=
  mapM (λ p : gmap string string, p !! "ctypes_data_type") params.

Section compound.
(** Attributes of [Parameter] that the record above does not carry. *)
Variable is_compound_type : FunctionParameter → bool.
Variable is_enum : FunctionParameter → bool.

(** [next((x for x in params if x.is_compound_type), None)]. *)
Definition get_compound_parameter (params : list FunctionParameter)
    : option FunctionParameter :=
  head (filter (λ x, is_compound_type x = true) params).

Definition get_input_arguments_for_compound_params (func : Function) : list string :=
  if any (filter (λ x, is_compound_type x = true) (base_parameters func)) then
    fold_left
      (λ compound_params parameter,
         if bool_decide (direction parameter = "in") && repeating_argument parameter then
           compound_params ++ [parameter_name parameter]
         else compound_params)
      (base_parameters func) []
  else [].

(** [get_grpc_interpreter_call_params] up to its last line: the list that
    is joined.  [set(grpc_params)] is a [gset]; the order in which its
    elements are listed does not show after [sorted]. *)
Definition grpc_interpreter_call_param_list (func : Function)
    (params : list FunctionParameter) : list string :=
  let compound_params := get_input_arguments_for_compound_params func in
  let grpc_params :=
    fold_left
      (λ grpc_params param,
         if decide (parameter_name param ∉ compound_params) then
           if is_enum param then
             grpc_params ++ [parameter_name param +:+ "_raw=" +:+ parameter_name param]
           else
             grpc_params ++ [parameter_name param +:+ "=" +:+ parameter_name param]
         else grpc_params)
      params [] in
  sorted (λ x, x) (elements (list_to_set grpc_params : gset string)).

Definition get_grpc_interpreter_call_params (func : Function)
    (params : list FunctionParameter) : string :=
  String.concat ", " (grpc_interpreter_call_param_list func params).

(** The entry of a parameter in the gRPC request. *)
Definition grpc_entry (param : FunctionParameter) : string :=
  if is_enum param then parameter_name param +:+ "_raw=" +:+ parameter_name param
  else parameter_name param +:+ "=" +:+ parameter_name param.
End compound.

(** ** Further notions for the properties *)

(** [old in s]. *)
Fixpoint str_contains (old s : string) : bool :=
  startswith old s
  || match s with
     | EmptyString => false
     | String _ s' => str_contains old s'
     end.

(** A catalog parameter is in the skip-set of its function: its name is the
    size of an ivi-dance buffer of the function, or it is excluded from the
    proto and named [size] or [reserved]. *)
Definition skipped (func : Meta.function_data) (name : string) : Prop :=
  (∃ p sz, p ∈ Meta.parameters func ∧ Meta.size p = Some sz
           ∧ Meta.mechanism sz = Some "ivi-dance" ∧ Meta.value sz = Some name)
  ∨ (∃ p, p ∈ Meta.parameters func ∧ Meta.name p = name
          ∧ Meta.include_in_proto p = Some false
          ∧ (name = "size" ∨ name = "reserved")).

(** What a catalog parameter adds to the skip-set. *)
Definition skip_entries_of (p : Meta.param) : list (option string) :=
  let size := get (Meta.size p) {| Meta.mechanism := None; Meta.value := None |} in
  (if decide (Meta.mechanism size ∈ [Some "ivi-dance"]) then [Meta.value size] else [])
  ++ (if is_skippable_param p then [Some (Meta.name p)] else []).

#[local] Instance ParameterSize_eq_dec : EqDecision ParameterSize.
Proof. solve_decision. Defined.

#[local] Instance FunctionParameter_eq_dec : EqDecision FunctionParameter.
Proof. solve_decision. Defined.

(** The sample catalog with its entries in the opposite order. *)
Definition sample_catalog_reversed : Meta.metadata :=
  {| Meta.functions := reverse (Meta.functions sample_catalog) |}.

(** An output parameter with an explicit buffer size that follows the
    ivi-dance mechanism. *)
Definition ivi_dance_output (p : FunctionParameter) : Prop :=
  direction p = "out" ∧ has_explicit_buffer_size p = true
  ∧ mechanism (size p) = "ivi-dance".

#[local] Instance ivi_dance_output_dec (p : FunctionParameter) :
  Decision (ivi_dance_output p).
Proof. unfold ivi_dance_output. apply _. Defined.

(** A function with a compound parameter and two repeating inputs. *)
Definition compound_like : Function :=
  plain_with
    [ input_scalar "task";
      {| parameter_name := "channel_names"; direction := "in"; type := "const char[]";
         ctypes_data_type := "ctypes.c_char_p";
         has_explicit_buffer_size := false;
         size := {| mechanism := ""; value := "" |};
         is_list := false; repeating_argument := true |};
      {| parameter_name := "power_up_states"; direction := "in"; type := "int32";
         ctypes_data_type := "ctypes.c_int";
         has_explicit_buffer_size := false;
         size := {| mechanism := ""; value := "" |};
         is_list := false; repeating_argument := true |};
      {| parameter_name := "channels"; direction := "in"; type := "struct";
         ctypes_data_type := "";
         has_explicit_buffer_size := false;
         size := {| mechanism := ""; value := "" |};
         is_list := false; repeating_argument := false |} ].
(** * Properties *)

(** ** Loops that append *)

Lemma fold_left_append {A B} (step : list B → A → list B) (emit : A → list B) l :
  (∀ acc x, step acc x = acc ++ emit x) →
  ∀ init, fold_left step l init = init ++ concat (map emit l).
Proof.
  intros Hstep. induction l as [|x l IH]; intros init; simpl.
  - by rewrite app_nil_r.
  - rewrite IH, Hstep. by rewrite <- app_assoc.
Qed.

Lemma fold_left_append1 {A B} (step : list B → A → list B) (emit : A → B) l :
  (∀ acc x, step acc x = acc ++ [emit x]) →
  ∀ init, fold_left step l init = init ++ map emit l.
Proof.
  intros Hstep. induction l as [|x l IH]; intros init; simpl.
  - by rewrite app_nil_r.
  - rewrite IH, Hstep. by rewrite <- app_assoc.
Qed.

(** ** Return values *)

Lemma return_expression_policy p : return_policy p (return_expression p).
Proof.
  unfold return_expression.
  destruct (repeating_argument p) eqn:Hrep; [by constructor|].
  case_decide; [by constructor|].
  destruct (is_list p) eqn:Hlist; [by constructor|].
  case_decide; by constructor.
Qed.

Lemma get_return_values_map func :
  get_return_values func = map return_expression (get_interpreter_output_params func).
Proof.
  unfold get_return_values.
  rewrite (fold_left_append1 _ return_expression); [done|].
  intros acc p. unfold return_expression.
  destruct (repeating_argument p); [done|].
  case_decide; [done|]. destruct (is_list p); [done|]. by case_decide.
Qed.

(** C7. Every output parameter of the interpreter parameters gets exactly one
    return expression, in order, chosen by shape in this precedence: a
    repeating output yields the list of each collected element's [.value];
    otherwise a [ctypes.c_char_p] output is decoded with the ['ascii']
    encoding; otherwise a list output is converted by [.tolist()]; otherwise
    a [TaskHandle] output is returned as it is; any other output returns its
    [.value]. *)
Theorem get_return_values_follow_policy (func : Function) :
  Forall2 return_policy (get_interpreter_output_params func) (get_return_values func).
Proof.
  rewrite get_return_values_map.
  induction (get_interpreter_output_params func) as [|p ps IH]; simpl.
  - constructor.
  - constructor; [apply return_expression_policy | exact IH].
Qed.

(** ** Instantiation of outputs *)

Lemma instantiation_lines_of_policy p : instantiation_policy p (instantiation_lines_of p).
Proof.
  unfold instantiation_lines_of.
  destruct (repeating_argument p) eqn:Hrep; [by constructor|].
  destruct (has_explicit_buffer_size p) eqn:Hexp; [|by constructor].
  case_decide as Hin.
  - destruct Hin as [Hmech Hlist]. by apply instantiate_passed_in.
  - case_decide as Hcustom.
    + by apply instantiate_custom_code.
    + by apply instantiate_nothing.
Qed.

Lemma get_instantiation_lines_for_output_concat func :
  get_instantiation_lines_for_output func =
    (if is_init_method func then [task_handle_line] else []) ++
    concat (map (λ p, if decide (parameter_name p = "task") then []
                      else instantiation_lines_of p)
              (get_interpreter_output_params func)).
Proof.
  unfold get_instantiation_lines_for_output. cbv zeta.
  apply fold_left_append. intros acc p.
  case_decide; [by rewrite app_nil_r|].
  unfold instantiation_lines_of.
  destruct (repeating_argument p); [done|].
  destruct (has_explicit_buffer_size p); [|done].
  destruct (is_list p); repeat case_bool_decide; repeat case_decide; simpl;
    rewrite ?app_nil_r, <- ?app_assoc; try done; exfalso; intuition congruence.
Qed.

Lemma concat_map_skip {A B} (P : A → Prop) `{!∀ x, Decision (P x)}
    (emit : A → list B) (l : list A) :
  concat (map (λ x, if decide (P x) then [] else emit x) l) =
  concat (map emit (filter (λ x, ¬ P x) l)).
Proof.
  induction l as [|x l IH]; [done|]. simpl.
  rewrite filter_cons. case_decide.
  - rewrite decide_False by tauto. done.
  - rewrite decide_True by tauto. simpl. by rewrite IH.
Qed.

(** C6, as stated, fails: an output without an explicit buffer size that is
    named [task] gets no zero-initialized scalar; the function has no
    instantiation statement at all. *)
Lemma scalar_output_named_task_not_instantiated :
  ∃ p, p ∈ get_interpreter_output_params task_output_only
       ∧ repeating_argument p = false
       ∧ has_explicit_buffer_size p = false
       ∧ (parameter_name p +:+ " = " +:+ ctypes_data_type p +:+ "()")
           ∉ get_instantiation_lines_for_output task_output_only.
Proof.
  eexists. split; [apply list_elem_of_here|].
  repeat split. vm_compute. apply not_elem_of_nil.
Qed.

(** C6, amended. The statements start with the zero-initialized task handle
    exactly when the function is a task-creation entry point, whatever its
    outputs; then every output parameter of the interpreter parameters that
    is not named [task] contributes, in order, by shape: a repeating output
    an empty list; otherwise an output with an explicit buffer size a
    [numpy.zeros] buffer of its element type, sized by the descriptor value
    when the mechanism is [passed-in] or [passed-in-by-ptr] and the output is
    a list, or by the [size] computed from the descriptor when the mechanism
    is [custom-code], and nothing for any other mechanism; an output without
    explicit buffer size a zero-initialized scalar of its type. *)
Theorem instantiation_lines_follow_policy (func : Function) :
  ∃ liness : list (list string),
    Forall2 instantiation_policy
      (filter (λ p, parameter_name p ≠ "task") (get_interpreter_output_params func))
      liness
    ∧ get_instantiation_lines_for_output func =
        (if is_init_method func then [task_handle_line] else []) ++ concat liness.
Proof.
  exists (map instantiation_lines_of
            (filter (λ p, parameter_name p ≠ "task") (get_interpreter_output_params func))).
  split.
  - induction (filter _ (get_interpreter_output_params func)) as [|p ps IH]; simpl.
    + constructor.
    + constructor; [apply instantiation_lines_of_policy | exact IH].
  - rewrite get_instantiation_lines_for_output_concat.
    by rewrite (concat_map_skip (λ p, parameter_name p = "task")).
Qed.

Lemma filter_out_without_task (l : list FunctionParameter) :
  filter (λ p, parameter_name p ≠ "task") (filter (λ p, direction p = "out") l) =
  filter (λ p, parameter_name p ≠ "task")
    (filter (λ p, direction p = "out")
       (filter (λ p, ¬ (direction p = "out" ∧ parameter_name p = "task")) l)).
Proof.
  induction l as [|p l IH]; [done|].
  rewrite !filter_cons.
  destruct (decide (direction p = "out")) as [Hout|Hout].
  - destruct (decide (parameter_name p = "task")) as [Htask|Htask].
    + rewrite (decide_False (P := ¬ _)) by tauto.
      rewrite filter_cons. rewrite decide_False by tauto. exact IH.
    + rewrite (decide_True (P := ¬ _)) by tauto.
      rewrite !filter_cons. rewrite (decide_True (P := direction p = "out")) by done.
      rewrite !filter_cons. rewrite !decide_True by done. by rewrite IH.
  - rewrite (decide_True (P := ¬ _)) by tauto.
    rewrite filter_cons. rewrite decide_False by done. exact IH.
Qed.

(** C10. An output parameter named [task] never gets an instantiation
    statement: the statements of a function are those of the same function
    with its outputs named [task] taken out, and a function that is not a
    task-creation entry point and whose outputs are all named [task] has no
    statement at all.  The task handle statement comes from the
    task-creation flag alone. *)
Theorem task_output_never_instantiated (func : Function) :
  get_instantiation_lines_for_output func =
    get_instantiation_lines_for_output (without_task_outputs func)
  ∧ (is_init_method func = false →
     Forall (λ p, parameter_name p = "task") (get_interpreter_output_params func) →
     get_instantiation_lines_for_output func = []).
Proof.
  split.
  - rewrite !get_instantiation_lines_for_output_concat.
    rewrite !(concat_map_skip (λ p, parameter_name p = "task")).
    unfold get_interpreter_output_params, without_task_outputs; simpl.
    by rewrite <- filter_out_without_task.
  - intros Hinit Hall.
    rewrite get_instantiation_lines_for_output_concat, Hinit. simpl.
    induction Hall as [|p ps Hp _ IH]; [done|]. simpl.
    by rewrite decide_True.
Qed.

Lemma task_output_never_instantiated_witness :
  get_instantiation_lines_for_output task_output_only = [].
Proof.
  apply (task_output_never_instantiated task_output_only).
  - reflexivity.
  - vm_compute. repeat constructor.
Defined.

(** ** Variable-argument calls *)

Section varargs_properties.
Variable to_param_argtype : FunctionParameter → string.

Lemma get_argument_definition_lines_concat (varargs_params : list FunctionParameter) :
  get_argument_definition_lines_for_varargs to_param_argtype varargs_params =
    concat (map (λ p, vararg_lines (to_param_argtype p) p) varargs_params).
Proof.
  unfold get_argument_definition_lines_for_varargs.
  rewrite (fold_left_append _ (λ p, vararg_lines (to_param_argtype p) p)); [done|].
  intros acc p. unfold vararg_lines. cbv zeta.
  case_decide; by rewrite <- !app_assoc.
Qed.

Lemma args_appends_of_vararg_lines (ps : list FunctionParameter) :
  filter (λ line, is_args_append line = true)
    (concat (map (λ p, vararg_lines (to_param_argtype p) p) ps)) =
  map (λ p, hd "" (vararg_lines (to_param_argtype p) p)) ps.
Proof.
  induction ps as [|p ps IH]; [done|].
  cbn [map concat]. unfold vararg_lines at 1. cbn [app hd].
  rewrite filter_cons_True by (by case_decide).
  rewrite filter_cons_False by (by vm_compute).
  rewrite filter_cons_False by (by vm_compute).
  by rewrite IH.
Qed.

Lemma argtypes_appends_of_vararg_lines (ps : list FunctionParameter) :
  filter (λ line, is_argtypes_append line = true)
    (concat (map (λ p, vararg_lines (to_param_argtype p) p) ps)) =
  map (λ p, "argtypes.append(" +:+ to_param_argtype p +:+ ")") ps.
Proof.
  induction ps as [|p ps IH]; [done|].
  cbn [map concat]. unfold vararg_lines at 1. cbn [app].
  rewrite filter_cons_False by (by case_decide).
  rewrite filter_cons_True by (by vm_compute).
  rewrite filter_cons_False by (by vm_compute).
  by rewrite IH.
Qed.

(** C9. The lines of the vararg parameters are, per parameter and in order,
    one append to [args] (the indexed element of an [in] parameter, a
    reference to the reserved element of any other one), directly followed
    by one append to [argtypes] and an empty line; so the appends to [args]
    and the appends to [argtypes] are two lists over the same parameters,
    of equal length and in the same order.  When the function has a vararg
    parameter, its instantiation lines create one element and append it
    once per declared output parameter, whatever the number of vararg
    parameters; otherwise there are none. *)
Theorem vararg_lines_in_lockstep (func : Function)
    (varargs_params : list FunctionParameter) :
  let lines := get_argument_definition_lines_for_varargs to_param_argtype varargs_params in
  lines = concat (map (λ p, vararg_lines (to_param_argtype p) p) varargs_params)
  ∧ filter (λ line, is_args_append line = true) lines =
      map (λ p, if decide (direction p = "in")
                then "args.append(" +:+ parameter_name p +:+ "[index])"
                else "args.append(ctypes.byref(" +:+ parameter_name p +:+ "_element))")
        varargs_params
  ∧ filter (λ line, is_argtypes_append line = true) lines =
      map (λ p, "argtypes.append(" +:+ to_param_argtype p +:+ ")") varargs_params
  ∧ length (filter (λ line, is_args_append line = true) lines) =
      length (filter (λ line, is_argtypes_append line = true) lines)
  ∧ get_instantiation_lines_for_varargs func =
      (if any (get_varargs_parameters func)
       then concat (map vararg_element_lines (output_parameters func))
       else [])
  ∧ length (get_instantiation_lines_for_varargs func) =
      (if any (get_varargs_parameters func)
       then 2 * length (output_parameters func)
       else 0).
Proof.
  intros lines. subst lines.
  rewrite get_argument_definition_lines_concat.
  rewrite args_appends_of_vararg_lines, argtypes_appends_of_vararg_lines.
  assert (Hinst : get_instantiation_lines_for_varargs func =
            if any (get_varargs_parameters func)
            then concat (map vararg_element_lines (output_parameters func))
            else []).
  { unfold get_instantiation_lines_for_varargs.
    destruct (any (get_varargs_parameters func)); [|done].
    rewrite (fold_left_append _ vararg_element_lines); [done|].
    intros acc p. unfold vararg_element_lines. by rewrite <- app_assoc. }
  repeat split; try done; try reflexivity.
  - by rewrite !length_map.
  - rewrite Hinst. clear Hinst. destruct (any (get_varargs_parameters func)); [|done].
    induction (output_parameters func) as [|p ps IH]; [done|].
    cbn [map concat]. rewrite length_app, IH. simpl. lia.
Qed.
End varargs_properties.

(** ** Call template *)

Lemma ivi_dance_outputs_filters func :
  filter (λ p, mechanism (size p) = "ivi-dance")
    (filter (λ p, has_explicit_buffer_size p = true) (get_output_params func)) =
  ivi_dance_outputs func.
Proof.
  unfold get_output_params, ivi_dance_outputs.
  rewrite !list_filter_filter. apply list_filter_iff. intros p. tauto.
Qed.

Lemma get_output_param_with_ivi_dance_mechanism_cases func :
  get_output_param_with_ivi_dance_mechanism func =
    match ivi_dance_outputs func with
    | [] => Return None
    | [p] => Return (Some p)
    | _ :: _ :: _ => Raise (NotImplementedError (ivi_dance_outputs func))
    end.
Proof.
  unfold get_output_param_with_ivi_dance_mechanism. cbv zeta.
  rewrite ivi_dance_outputs_filters.
  destruct (ivi_dance_outputs func) as [|p [|q l]];
    repeat case_decide; simpl in *; try done; lia.
Qed.

(** C1, as stated, fails: a function that streams its response gets the
    event template with exactly one ivi-dance output, and gets it as well,
    without any error, with two of them. *)
Lemma streaming_function_ignores_ivi_dance :
  length (ivi_dance_outputs (streaming_with [ivi_dance_buffer "data" "bufferSize"])) = 1
  ∧ get_c_function_call_template (streaming_with [ivi_dance_buffer "data" "bufferSize"])
      = Return "/event_function_call.py.mako"
  ∧ get_c_function_call_template (streaming_with [ivi_dance_buffer "data" "bufferSize"])
      ≠ Return "/double_c_function_call.py.mako"
  ∧ length (ivi_dance_outputs
              (streaming_with [ivi_dance_buffer "data" "bufferSize";
                               ivi_dance_buffer "names" "namesSize"])) = 2
  ∧ get_c_function_call_template
      (streaming_with [ivi_dance_buffer "data" "bufferSize";
                       ivi_dance_buffer "names" "namesSize"])
      = Return "/event_function_call.py.mako".
Proof. repeat split; try (vm_compute; reflexivity). vm_compute. discriminate. Qed.

(** C1, amended. The template is chosen in this order: the event template
    for a function that streams its response; else the vararg template for a
    function with a repeating parameter; else, by the output parameters with
    an explicit buffer size and the ivi-dance mechanism: the default template
    when there is none, the two-pass template when there is exactly one, and
    with two or more no template at all but a [NotImplementedError] that
    carries them. *)
Theorem get_c_function_call_template_cases (func : Function) :
  get_c_function_call_template func =
    if stream_response func then Return "/event_function_call.py.mako"
    else if any (get_varargs_parameters func) then
      Return "/exec_cdecl_c_function_call.py.mako"
    else
      match ivi_dance_outputs func with
      | [] => Return "/default_c_function_call.py.mako"
      | [_] => Return "/double_c_function_call.py.mako"
      | _ :: _ :: _ => Raise (NotImplementedError (ivi_dance_outputs func))
      end.
Proof.
  unfold get_c_function_call_template, has_parameter_with_ivi_dance_size_mechanism.
  destruct (stream_response func); [done|].
  destruct (any (get_varargs_parameters func)); [done|].
  rewrite get_output_param_with_ivi_dance_mechanism_cases.
  by destruct (ivi_dance_outputs func) as [|p [|q l]].
Qed.

(** ** Arguments of the C call *)

Lemma size_values_fold_lookup (params : list FunctionParameter) (slot : string) :
  ∀ m : gmap string SizeParameter.t,
    fold_left
      (λ (size_values : gmap string SizeParameter.t) param,
         if has_explicit_buffer_size param then
           if decide (direction param = "in") then
             <[value (size param) :=
                 SizeParameter.mk (parameter_name param)
                   ("len(" +:+ parameter_name param +:+ ")")]> size_values
           else if decide (direction param = "out") then
             if decide (mechanism (size param) = "ivi-dance") then
               <[value (size param) :=
                   SizeParameter.mk (parameter_name param) "temp_size"]> size_values
             else size_values
           else size_values
         else size_values)
      params m !! slot =
    match recorded_supplier params slot with
    | Some q => Some (SizeParameter.mk (parameter_name q) (size_expression q))
    | None => m !! slot
    end.
Proof.
  unfold recorded_supplier.
  induction params as [|p ps IH]; intros m; [done|].
  cbn [fold_left]. rewrite IH. rewrite filter_cons.
  destruct (decide (records_size p ∧ value (size p) = slot)) as [[Hrec Hslot]|Hno].
  - rewrite last_cons.
    destruct (last (filter _ ps)) as [q|]; [done|].
    destruct Hrec as [Hexp Hdir]. rewrite Hexp. unfold size_expression.
    destruct (decide (direction p = "in")) as [Hin|Hin].
    + rewrite Hslot. by rewrite lookup_insert_eq.
    + destruct Hdir as [?|[Hout Hivi]]; [done|].
      rewrite decide_True by done. rewrite decide_True by done.
      rewrite Hslot. by rewrite lookup_insert_eq.
  - destruct (last (filter _ ps)) as [q|]; [done|].
    destruct (has_explicit_buffer_size p) eqn:Hexp; [|done].
    destruct (decide (direction p = "in")) as [Hin|Hin].
    + rewrite lookup_insert_ne; [done|]. intros Hslot. apply Hno.
      split; [split; auto|done].
    + destruct (decide (direction p = "out")) as [Hout|Hout]; [|done].
      destruct (decide (mechanism (size p) = "ivi-dance")) as [Hivi|Hivi]; [|done].
      rewrite lookup_insert_ne; [done|]. intros Hslot. apply Hno.
      split; [split; auto|done].
Qed.

Lemma size_values_of_lookup (params : list FunctionParameter) (slot : string) :
  size_values_of params !! slot =
    (λ q, SizeParameter.mk (parameter_name q) (size_expression q))
      <$> recorded_supplier params slot.
Proof.
  unfold size_values_of. rewrite size_values_fold_lookup.
  by destruct (recorded_supplier params slot).
Qed.

Lemma generate_interpreter_function_call_args_concat (func : Function) :
  generate_interpreter_function_call_args func =
    concat (map (λ p, argument_of p ++ size_argument_after (interpreter_parameters func) p)
              (interpreter_parameters func)).
Proof.
  unfold generate_interpreter_function_call_args. cbv zeta.
  rewrite (fold_left_append _
    (λ p, argument_of p ++ size_argument_after (interpreter_parameters func) p)); [done|].
  intros acc p. unfold argument_of, size_argument_after.
  rewrite size_values_of_lookup.
  destruct (has_explicit_buffer_size p);
    [destruct (recorded_supplier _ _) as [q|]; simpl|];
    repeat case_decide; rewrite ?app_nil_r, <- ?app_assoc; done.
Qed.

Lemma recorded_supplier_records params slot q :
  recorded_supplier params slot = Some q →
  records_size q ∧ value (size q) = slot.
Proof.
  unfold recorded_supplier. intros Hlast.
  apply last_Some_elem_of in Hlast.
  by apply list_elem_of_filter in Hlast as [? _].
Qed.

Lemma argument_of_passed_as p : passed_as p (argument_of p).
Proof.
  unfold argument_of.
  destruct (decide (direction p = "in")); [by constructor|].
  destruct (decide (direction p = "out")); [|by constructor].
  destruct (has_explicit_buffer_size p) eqn:?; by constructor.
Qed.

Lemma size_argument_after_followed_by params p :
  followed_by params p (size_argument_after params p).
Proof.
  unfold size_argument_after.
  destruct (has_explicit_buffer_size p) eqn:Hexp; [|by constructor].
  destruct (recorded_supplier params (value (size p))) as [q|] eqn:Hq;
    [|by constructor].
  destruct (decide (parameter_name p = parameter_name q)) as [Hname|Hname].
  - unfold size_expression.
    destruct (recorded_supplier_records _ _ _ Hq) as [[_ Hdir] _].
    destruct (decide (direction q = "in")) as [Hin|Hin].
    + by eapply followed_by_len.
    + destruct Hdir as [?|[Hout Hivi]]; [done|]. by eapply followed_by_temp_size.
  - by eapply followed_by_nothing_other.
Qed.

(** C2. The call arguments are those of the interpreter parameters, one
    after the other in declared order.  A parameter is passed by its name
    when it is an [in] parameter or an [out] parameter with an explicit
    buffer size, and as [ctypes.byref] of its name when it is an [out]
    parameter without one.  A parameter with an explicit buffer size that
    carries the name of the parameter recorded for its size slot is followed
    by the size expression: [len] of the recorded parameter when that is an
    [in] parameter, [temp_size] when it is an [out] parameter with the
    ivi-dance mechanism; no other parameter is followed by anything. *)
Theorem call_args_walk_parameters (func : Function) :
  ∃ argss : list (list string),
    Forall2 (call_arguments_of (interpreter_parameters func))
      (interpreter_parameters func) argss
    ∧ generate_interpreter_function_call_args func = concat argss.
Proof.
  exists (map (λ p, argument_of p ++ size_argument_after (interpreter_parameters func) p)
            (interpreter_parameters func)).
  split; [|apply generate_interpreter_function_call_args_concat].
  generalize (interpreter_parameters func) at 1 3 as all.
  intros all. induction (interpreter_parameters func) as [|p ps IH]; simpl.
  - constructor.
  - constructor; [|exact IH].
    constructor; [apply argument_of_passed_as | apply size_argument_after_followed_by].
Qed.

(** The skip-set of ingestion does not hold [numSamps]: it holds the sizes
    of ivi-dance buffers and the excluded parameters named [size] or
    [reserved].  Leaving [numSamps] out is the work of the function model. *)
Example skip_set_keeps_numSamps :
  get_skippable_params_for_interpreter_func
    {| Meta.c_function_name := None;
       Meta.parameters :=
         [ {| Meta.name := "data";
              Meta.size := Some {| Meta.mechanism := Some "len";
                                   Meta.value := Some "numSamps" |};
              Meta.include_in_proto := None |};
           {| Meta.name := "numSamps"; Meta.size := None;
              Meta.include_in_proto := Some false |} ] |} = [].
Proof. by vm_compute. Qed.




(** C4, as stated, fails: of two input arrays that share a size slot, the
    first in declared order is not the one whose length is passed; the length
    of the second one is, after the second one. *)
Lemma first_candidate_does_not_win :
  head (filter (λ q, records_size q ∧ value (size q) = "arraySize")
          (interpreter_parameters two_arrays_one_size))
    = Some (input_array "a" "arraySize")
  ∧ generate_interpreter_function_call_args two_arrays_one_size = ["a"; "b"; "len(b)"]
  ∧ "len(a)" ∉ generate_interpreter_function_call_args two_arrays_one_size.
Proof.
  assert (Hargs : generate_interpreter_function_call_args two_arrays_one_size =
                    ["a"; "b"; "len(b)"]).
  { rewrite generate_interpreter_function_call_args_concat. by vm_compute. }
  split; [by vm_compute|]. split; [exact Hargs|].
  rewrite Hargs, !not_elem_of_cons.
  repeat split; try discriminate. apply not_elem_of_nil.
Qed.

(** C4, amended. When several parameters record a size for one size slot,
    the slot keeps the last of them in declared order: its name and, for an
    [in] parameter, [len] of it, for an ivi-dance [out] parameter,
    [temp_size].  The call arguments are built from that record, which makes
    them a function of the parameters alone. *)
Theorem last_candidate_wins (func : Function) (slot : string) :
  size_values_of (interpreter_parameters func) !! slot =
    (λ q, SizeParameter.mk (parameter_name q) (size_expression q))
      <$> last (filter (λ q, records_size q ∧ value (size q) = slot)
                  (interpreter_parameters func))
  ∧ generate_interpreter_function_call_args func =
      concat (map (λ p, argument_of p ++
                        if has_explicit_buffer_size p then
                          match size_values_of (interpreter_parameters func)
                                  !! value (size p) with
                          | Some recorded =>
                              if decide (parameter_name p = SizeParameter.name recorded)
                              then [SizeParameter.size recorded] else []
                          | None => []
                          end
                        else [])
                (interpreter_parameters func)).
Proof.
  split; [apply size_values_of_lookup|].
  rewrite generate_interpreter_function_call_args_concat.
  f_equal. apply map_ext. intros p. f_equal.
  unfold size_argument_after. rewrite size_values_of_lookup.
  destruct (has_explicit_buffer_size p); [|done].
  by destruct (recorded_supplier _ _).
Qed.

(** ** Sorting by key *)

Lemma string_leb_trans (s1 s2 s3 : string) :
  String.leb s1 s2 = true → String.leb s2 s3 = true → String.leb s1 s3 = true.
Proof.
  unfold String.leb.
  destruct (String.compare s1 s2) eqn:H12; [| |done].
  - apply String.compare_eq_iff in H12 as ->. done.
  - destruct (String.compare s2 s3) eqn:H23; [| |done]; intros _ _.
    + apply String.compare_eq_iff in H23 as <-. by rewrite H12.
    + apply String_as_OT.cmp_lt in H12, H23.
      pose proof (String_as_OT.lt_trans _ _ _ H12 H23) as H13.
      apply String_as_OT.cmp_lt in H13. unfold String_as_OT.cmp in H13.
      by rewrite H13.
Qed.

Lemma string_ltb_leb (s1 s2 : string) :
  String.ltb s1 s2 = true → String.leb s1 s2 = true.
Proof. unfold String.ltb, String.leb. by destruct (String.compare s1 s2). Qed.

Lemma string_not_ltb_leb (s1 s2 : string) :
  String.ltb s1 s2 = false → String.leb s2 s1 = true.
Proof.
  unfold String.ltb, String.leb. rewrite (String.compare_antisym s1 s2).
  by destruct (String.compare s2 s1).
Qed.

Section sorted_properties.
Context {A : Type} (key : A → string).

Let le (x y : A) : Prop := String.leb (key x) (key y) = true.

Lemma insert_sorted_Permutation x l : insert_sorted key x l ≡ₚ x :: l.
Proof.
  induction l as [|y l IH]; simpl; [done|].
  destruct (String.ltb (key y) (key x)); [|done].
  rewrite IH. apply Permutation_swap.
Qed.

Lemma sorted_Permutation l : sorted key l ≡ₚ l.
Proof.
  induction l as [|x l IH]; simpl; [done|].
  unfold sorted in IH. by rewrite insert_sorted_Permutation, IH.
Qed.

Lemma insert_sorted_HdRel z x l :
  le z x → HdRel le z l → HdRel le z (insert_sorted key x l).
Proof.
  intros Hzx Hzl. destruct l as [|y l]; simpl; [by constructor|].
  destruct (String.ltb (key y) (key x)).
  - constructor. by inversion Hzl.
  - by constructor.
Qed.

Lemma insert_sorted_Sorted x l : Sorted le l → Sorted le (insert_sorted key x l).
Proof.
  induction 1 as [|y l Hl IH Hy]; simpl; [by repeat constructor|].
  destruct (String.ltb (key y) (key x)) eqn:Hlt.
  - constructor; [exact IH|].
    apply insert_sorted_HdRel; [|exact Hy]. by apply string_ltb_leb.
  - constructor; [by constructor|].
    constructor. by apply string_not_ltb_leb.
Qed.

Lemma sorted_StronglySorted l : StronglySorted le (sorted key l).
Proof.
  apply Sorted_StronglySorted.
  - intros x y z. apply string_leb_trans.
  - induction l as [|x l IH]; simpl; [constructor|].
    by apply insert_sorted_Sorted.
Qed.
End sorted_properties.

(** ** Metadata ingestion *)

Section ingestion_properties.
Variable camel_to_snake_case : string → list regex → string.

Lemma get_interpreter_functions_sorted_map (metadata : Meta.metadata) :
  get_interpreter_functions camel_to_snake_case metadata =
    sorted _function_name
      (map (ingested camel_to_snake_case)
         (filter (λ item, item.1 ∉ INTERPRETER_IGNORED_FUNCTIONS)
            (Meta.functions metadata))).
Proof.
  unfold get_interpreter_functions. cbv zeta. f_equal.
  rewrite (fold_left_append _
    (λ item, if decide (item.1 ∈ INTERPRETER_IGNORED_FUNCTIONS) then []
             else [ingested camel_to_snake_case item])).
  - simpl. induction (Meta.functions metadata) as [|[n d] items IH]; [done|].
    cbn [map concat]. rewrite filter_cons. cbn [fst].
    destruct (decide (n ∈ INTERPRETER_IGNORED_FUNCTIONS)) as [Hin|Hin].
    + rewrite decide_False by tauto. exact IH.
    + rewrite decide_True by done. cbn [map app]. by rewrite IH.
  - intros acc [n d]. cbn [fst snd].
    destruct (decide (n ∈ INTERPRETER_IGNORED_FUNCTIONS)); [by rewrite app_nil_r|done].
Qed.

(** C5, amended. Ingestion returns the catalog entries whose native name
    is not in [INTERPRETER_IGNORED_FUNCTIONS], each under its normalized
    name, in ascending lexicographic order of the normalized names; the
    event-registration entries of [LIBRARY_INTERPRETER_IGNORED_FUNCTIONS]
    are entries like any other and stay in the sequence. *)
Theorem ingestion_filters_and_sorts (metadata : Meta.metadata) :
  let result := get_interpreter_functions camel_to_snake_case metadata in
  StronglySorted name_le result
  ∧ Forall
      (λ x, ∃ n, (Meta.c_function_name (function_data x) = Some n)
                 ∧ (n ∉ INTERPRETER_IGNORED_FUNCTIONS)
                 ∧ (_function_name x = normalized_function_name camel_to_snake_case n))
      result
  ∧ result ≡ₚ
      map (ingested camel_to_snake_case)
        (filter (λ item, item.1 ∉ INTERPRETER_IGNORED_FUNCTIONS)
           (Meta.functions metadata)).
Proof.
  intros result. subst result. rewrite get_interpreter_functions_sorted_map.
  split; [apply sorted_StronglySorted|].
  split; [|apply sorted_Permutation].
  rewrite sorted_Permutation. apply Forall_forall. intros x Hx.
  apply list_elem_of_fmap in Hx as [[n d] [-> Hitem]].
  apply list_elem_of_filter in Hitem as [Hn _].
  exists n. by repeat split.
Qed.
End ingestion_properties.

(** C5, as stated, fails: an event-registration primitive of
    [LIBRARY_INTERPRETER_IGNORED_FUNCTIONS] comes out of ingestion. *)
Lemma event_registration_is_ingested :
  "RegisterDoneEvent" ∈ LIBRARY_INTERPRETER_IGNORED_FUNCTIONS
  ∧ map (λ x, (_function_name x, Meta.c_function_name (function_data x)))
      (get_interpreter_functions camel_to_snake_case sample_catalog) =
    [ ("read_binary_uint32", Some "ReadBinaryUInt32");
      ("register_done_event", Some "RegisterDoneEvent");
      ("start_task", Some "StartTask") ].
Proof.
  split.
  - do 2 apply list_elem_of_further. apply list_elem_of_here.
  - by vm_compute.
Qed.

(** ** Strings *)

Lemma string_app_cons (c : ascii) (s1 s2 : string) :
  String c s1 +:+ s2 = String c (s1 +:+ s2).
Proof. reflexivity. Qed.

Lemma string_app_nil_l (s : string) : "" +:+ s = s.
Proof. reflexivity. Qed.

Tactic Notation "string_simpl" :=
  rewrite ?string_app_cons, ?string_app_nil_l.
Tactic Notation "string_simpl" "in" hyp(H) :=
  rewrite ?string_app_cons, ?string_app_nil_l in H.

Lemma string_app_assoc (s1 s2 s3 : string) : (s1 +:+ s2) +:+ s3 = s1 +:+ s2 +:+ s3.
Proof. induction s1 as [|c s1 IH]; string_simpl; [done|]. by rewrite IH. Qed.

Lemma string_app_nil_r (s : string) : s +:+ "" = s.
Proof. induction s as [|c s IH]; string_simpl; [done|]. by rewrite IH. Qed.

Lemma string_app_length (s1 s2 : string) :
  String.length (s1 +:+ s2) = String.length s1 + String.length s2.
Proof. induction s1 as [|c s1 IH]; string_simpl; simpl; [done|]. by rewrite IH. Qed.

Lemma string_length_zero (s : string) : String.length s = 0 → s = "".
Proof. by destruct s. Qed.

Lemma startswith_split (p s : string) :
  startswith p s = true → ∃ rest, s = p +:+ rest.
Proof.
  revert s. induction p as [|a p IH]; intros s; simpl.
  - intros _. by exists s.
  - destruct s as [|b s]; [done|].
    intros [Hab Hps]%andb_true_iff.
    apply Ascii.eqb_eq in Hab as ->.
    destruct (IH _ Hps) as [rest ->]. exists rest. by string_simpl.
Qed.

(** ** Character classes *)

Lemma is_upper_not_digit c : is_upper c = true → is_digit c = false.
Proof.
  unfold is_upper, is_digit, in_range.
  intros [Hlo Hhi]%andb_true_iff. apply N.leb_le in Hlo. cbn in Hlo.
  apply andb_false_iff. right. apply N.leb_gt. cbn. lia.
Qed.

Lemma not_underscore_digit_not_digit c :
  not_underscore_digit c = true → is_digit c = false.
Proof.
  unfold not_underscore_digit. intros H%negb_true_iff.
  by apply orb_false_iff in H as [_ ?].
Qed.

Lemma lower_char_digit c : is_digit c = true → lower_char c = c.
Proof.
  unfold lower_char, is_upper, is_digit, in_range.
  intros [Hlo Hhi]%andb_true_iff. apply N.leb_le in Hhi. cbn in Hhi.
  assert ((N_of_ascii "A" <=? N_of_ascii c)%N = false) as Hupper
    by (apply N.leb_gt; cbn; lia).
  assert ((N_of_ascii (ascii_of_N 192) <=? N_of_ascii c)%N = false) as Hlatin
    by (apply N.leb_gt; cbn; lia).
  by rewrite Hupper, Hlatin.
Qed.

Lemma str_lower_app (s1 s2 : string) :
  str_lower (s1 +:+ s2) = str_lower s1 +:+ str_lower s2.
Proof. induction s1 as [|c s1 IH]; string_simpl; simpl; [done|]. by rewrite IH. Qed.

Lemma str_lower_digits (ds : string) : all_digits ds = true → str_lower ds = ds.
Proof.
  induction ds as [|d ds IH]; simpl; [done|].
  intros [Hd Hds]%andb_true_iff. by rewrite lower_char_digit, IH.
Qed.

(** ** Matches *)

Lemma span_split cls s m rest : span cls s = (m, rest) → s = m +:+ rest.
Proof.
  revert m rest. induction s as [|c s IH]; intros m rest; simpl.
  - by intros [= <- <-].
  - destruct (cls c).
    + destruct (span cls s) as [m' rest'] eqn:Hspan.
      intros [= <- <-]. string_simpl. by rewrite <- (IH _ _ eq_refl).
    + by intros [= <- <-].
Qed.

Lemma match_atoms_split atoms s m rest :
  match_atoms atoms s = Some (m, rest) → s = m +:+ rest.
Proof.
  revert s m rest. induction atoms as [|[cls|cls] atoms IH]; intros s m rest; simpl.
  - by intros [= <- <-].
  - destruct s as [|c s]; [done|]. destruct (cls c); [|done].
    destruct (match_atoms atoms s) as [[m' rest']|] eqn:Hm; [|done]. simpl.
    intros [= <- <-]. string_simpl. by rewrite <- (IH _ _ _ Hm).
  - destruct s as [|c s]; [done|]. destruct (cls c); [|done].
    destruct (span cls s) as [run after] eqn:Hspan.
    destruct (match_atoms atoms after) as [[m' rest']|] eqn:Hm; [|done]. simpl.
    intros [= <- <-]. string_simpl. rewrite string_app_assoc.
    rewrite <- (IH _ _ _ Hm). by rewrite <- (span_split _ _ _ _ Hspan).
Qed.

Lemma match_atoms_head cls atoms s m rest :
  match_atoms (Chr cls :: atoms) s = Some (m, rest) →
  ∃ d m', m = String d m' ∧ cls d = true.
Proof.
  simpl. destruct s as [|c s]; [done|]. destruct (cls c) eqn:Hc; [|done].
  destruct (match_atoms atoms s) as [[m' rest']|]; [|done]. simpl.
  intros [= <- <-]. eauto.
Qed.

Lemma match_at_splits_before_non_digit atoms1 cls atoms2 :
  (∀ c, cls c = true → is_digit c = false) →
  splits_before_non_digit (Regex atoms1 (Chr cls :: atoms2)).
Proof.
  intros Hcls s g1 g2. unfold match_at. cbn [group1 group2].
  destruct (match_atoms atoms1 s) as [[m1 rest1]|] eqn:H1; [|done]. cbn [mbind option_bind].
  destruct (match_atoms (Chr cls :: atoms2) rest1) as [[m2 rest2]|] eqn:H2; [|done].
  cbn [mbind option_bind]. intros [= <- <-].
  destruct (match_atoms_head _ _ _ _ _ H2) as (d & m' & -> & Hd).
  exists d, m', rest2. split; [done|]. split; [by apply Hcls|].
  rewrite (match_atoms_split _ _ _ _ H1). by rewrite (match_atoms_split _ _ _ _ H2).
Qed.

Lemma interpreter_regexes_split_before_non_digit :
  Forall splits_before_non_digit INTERPRETER_CAMEL_TO_SNAKE_CASE_REGEXES.
Proof.
  repeat constructor; apply match_at_splits_before_non_digit.
  - apply is_upper_not_digit.
  - apply is_upper_not_digit.
  - apply not_underscore_digit_not_digit.
Qed.

(** ** Separators are put in before characters that are not digits *)

Lemma separated_refl s : separated s s.
Proof. induction s; by constructor. Qed.

Lemma separated_prefix p x y : separated x y → separated (p +:+ x) (p +:+ y).
Proof. intros Hxy. induction p as [|c p IH]; string_simpl; [done|]. by constructor. Qed.

Section sub_separates.
Variable r : regex.
Hypothesis Hr : splits_before_non_digit r.

Lemma sub_from_separated s :
  ∀ skip p rest,
    s = p +:+ rest → String.length p = skip →
    separated rest (sub_from r skip s).
Proof.
  induction s as [|c s IH]; intros skip p rest Hs Hlen.
  - destruct p; [|done]. string_simpl in Hs. subst rest. simpl. constructor.
  - destruct skip as [|k].
    + apply string_length_zero in Hlen as ->. string_simpl in Hs. subst rest.
      cbn [sub_from].
      destruct (match_at r (String c s)) as [[g1 g2]|] eqn:Hmatch.
      * destruct (Hr _ _ _ Hmatch) as (d & g2' & rest & -> & Hd & Hsplit).
        assert (∃ p', g1 +:+ String d g2' = String c p' ∧ s = p' +:+ rest)
          as (p' & Hp' & Hs').
        { rewrite <- string_app_assoc in Hsplit.
          destruct (g1 +:+ String d g2') as [|c' p'] eqn:Hg.
          - destruct g1; discriminate Hg.
          - string_simpl in Hsplit. injection Hsplit as -> ->. eauto. }
        assert (String.length g1 + String.length (String d g2') - 1 = String.length p')
          as ->.
        { rewrite <- string_app_length, Hp'. simpl. lia. }
        rewrite Hsplit, !string_app_assoc. apply separated_prefix.
        string_simpl. apply separated_insert; [exact Hd|].
        apply separated_prefix. by apply (IH _ p').
      * constructor. by apply (IH 0 "").
    + destruct p as [|c' p]; [done|]. string_simpl in Hs.
      injection Hs as -> ->. cbn [sub_from]. apply (IH k p); [done|].
      simpl in Hlen. lia.
Qed.

Lemma re_sub_separated s : separated s (re_sub r s).
Proof. by apply (sub_from_separated s 0 ""). Qed.
End sub_separates.

Lemma separated_digits ds y : all_digits ds = true → separated ds y → y = ds.
Proof.
  intros Hds Hsep. induction Hsep as [|c x y Hxy IH|c x y Hc Hxy IH]; [done| |].
  - simpl in Hds. apply andb_true_iff in Hds as [_ Hx]. by rewrite IH.
  - simpl in Hds. apply andb_true_iff in Hds as [Hd _]. congruence.
Qed.

Lemma separated_digit_tail w c ds y :
  all_digits ds = true →
  separated (w +:+ String c ds) y →
  ∃ w', y = w' +:+ String c ds.
Proof.
  intros Hds. revert y. induction w as [|a w IH]; intros y; string_simpl.
  - inversion 1 as [|? ? y' Hy'|? ? y' ? Hy']; subst.
    + exists "". by rewrite (separated_digits _ _ Hds Hy').
    + exists "_". by rewrite (separated_digits _ _ Hds Hy').
  - inversion 1 as [|? ? y' Hy'|? ? y' ? Hy']; subst.
    + destruct (IH _ Hy') as [w' ->]. by exists (String a w').
    + destruct (IH _ Hy') as [w' ->]. by exists (String "_" (String a w')).
Qed.

(** ** Separators are taken out before characters that are not digits *)

Lemma joined_prefix p x y : joined x y → joined (p +:+ x) (p +:+ y).
Proof. intros Hxy. induction p as [|c p IH]; string_simpl; [done|]. by constructor. Qed.

Lemma replace_u_int_joined s :
  ∀ skip p rest,
    s = p +:+ rest → String.length p = skip →
    joined rest (replace_from "_u_int" "_uint" skip s).
Proof.
  induction s as [|c s IH]; intros skip p rest Hs Hlen.
  - destruct p; [|done]. string_simpl in Hs. subst rest. simpl. constructor.
  - destruct skip as [|k].
    + apply string_length_zero in Hlen as ->. string_simpl in Hs. subst rest.
      cbn [replace_from].
      destruct (startswith "_u_int" (String c s)) eqn:Hstart.
      * apply startswith_split in Hstart as [rest Hsplit].
        string_simpl in Hsplit. injection Hsplit as -> ->.
        change (String.length "_u_int" - 1) with 5.
        string_simpl. do 2 apply joined_keep.
        apply joined_remove; [done|].
        do 3 apply joined_keep. by apply (IH 5 "u_int").
      * constructor. by apply (IH 0 "").
    + destruct p as [|c' p]; [done|]. string_simpl in Hs.
      injection Hs as -> ->. cbn [replace_from]. apply (IH k p); [done|].
      simpl in Hlen. lia.
Qed.

Lemma joined_digits ds y : all_digits ds = true → joined ds y → y = ds.
Proof.
  intros Hds Hjoin. induction Hjoin as [|c x y Hxy IH|c x y Hc Hxy IH]; [done| |].
  - simpl in Hds. apply andb_true_iff in Hds as [_ Hx]. by rewrite IH.
  - simpl in Hds. discriminate Hds.
Qed.

Lemma joined_digit_tail x y :
  joined x y →
  ∀ w c ds, x = w +:+ String c ds → all_digits ds = true →
            ∃ w', y = w' +:+ String c ds.
Proof.
  induction 1 as [|a x y Hxy IH|a x y Ha Hxy IH]; intros w c ds Hx Hds.
  - by destruct w.
  - destruct w as [|b w]; string_simpl in Hx; injection Hx as -> ->.
    + exists "". by rewrite (joined_digits _ _ Hds Hxy).
    + destruct (IH _ _ _ eq_refl Hds) as [w' ->]. by exists (String b w').
  - destruct w as [|b w]; string_simpl in Hx.
    + injection Hx as <- <-. simpl in Hds.
      apply andb_true_iff in Hds as [Hd _]. congruence.
    + injection Hx as <- Hx. by apply (IH w c ds).
Qed.

(** ** Name normalization *)

Lemma camel_to_snake_case_digit_tail (regexes : list regex) w c ds :
  Forall splits_before_non_digit regexes →
  all_digits ds = true →
  ∃ w', camel_to_snake_case (w +:+ String c ds) regexes
          = w' +:+ String (lower_char c) ds.
Proof.
  intros Hregexes Hds. unfold camel_to_snake_case.
  assert (∃ w', fold_left (λ partial regex, re_sub regex partial) regexes
                  (w +:+ String c ds) = w' +:+ String c ds) as [w' ->].
  { revert w. induction Hregexes as [|r regexes Hr _ IH]; intros w; [by exists w|].
    cbn [fold_left].
    destruct (separated_digit_tail w c ds _ Hds (re_sub_separated r Hr _)) as [w1 ->].
    apply IH. }
  exists (str_lower w').
  rewrite str_lower_app. simpl. by rewrite (str_lower_digits ds Hds).
Qed.

(** C8. A native name that ends in a run of digits keeps, normalized, the
    run attached to the character before it: the normalized name ends with
    that character, lower-cased, directly followed by the run.  Unless the
    native name had a separator there itself, there is none. *)
Theorem normalization_keeps_digits_attached (w : string) (c : ascii) (ds : string) :
  all_digits ds = true →
  Ascii.eqb c "_" = false →
  ∃ w', interpreter_function_name (w +:+ String c ds)
          = w' +:+ String (lower_char c) ds
        ∧ lower_char c ≠ "_"%char.
Proof.
  intros Hds Hc.
  unfold interpreter_function_name, normalized_function_name. cbv zeta.
  destruct (camel_to_snake_case_digit_tail _ w c ds
              interpreter_regexes_split_before_non_digit Hds) as [w1 ->].
  unfold str_replace.
  destruct (joined_digit_tail _ _
              (replace_u_int_joined (w1 +:+ String (lower_char c) ds) 0 "" _ eq_refl eq_refl)
              w1 (lower_char c) ds eq_refl Hds) as [w' ->].
  exists w'. split; [done|].
  unfold lower_char. intros Hlower.
  destruct (is_upper c || _) eqn:Hcase.
  - assert (N_of_ascii (ascii_of_N (N_of_ascii c + 32)) = 95%N) as Hn
      by (by rewrite Hlower).
    rewrite N_ascii_embedding in Hn.
    + assert (c = ascii_of_N 63) as -> by (rewrite <- (ascii_N_embedding c); f_equal; lia).
      by vm_compute in Hcase.
    + pose proof (N_ascii_bounded c).
      apply orb_true_iff in Hcase as [Hup|Hlat].
      * unfold is_upper, in_range in Hup. apply andb_true_iff in Hup as [_ Hhi].
        apply N.leb_le in Hhi. cbn in Hhi. lia.
      * apply andb_true_iff in Hlat as [Hr _]. unfold in_range in Hr.
        apply andb_true_iff in Hr as [_ Hhi]. apply N.leb_le in Hhi. cbn in Hhi. lia.
  - subst c. by vm_compute in Hc.
Qed.

Lemma normalization_keeps_digits_attached_witness :
  ∃ w', interpreter_function_name "ReadBinaryUInt32" = w' +:+ "t32"
        ∧ lower_char "t" ≠ "_"%char.
Proof.
  apply (normalization_keeps_digits_attached "ReadBinaryUIn" "t" "32"); reflexivity.
Defined.

(** ** Sample runs *)

Example call_args_of_ivi_dance_function :
  generate_interpreter_function_call_args
    (plain_with [input_scalar "task"; ivi_dance_buffer "data" "bufferSize";
                 output_scalar "status" "ctypes.c_int"])
  = ["task"; "data"; "temp_size"; "ctypes.byref(status)"].
Proof. rewrite generate_interpreter_function_call_args_concat. by vm_compute. Qed.

Example template_of_one_ivi_dance_output :
  get_c_function_call_template (plain_with [ivi_dance_buffer "data" "bufferSize"])
  = Return "/double_c_function_call.py.mako".
Proof. by vm_compute. Qed.

Example template_of_two_ivi_dance_outputs :
  get_c_function_call_template
    (plain_with [ivi_dance_buffer "data" "bufferSize"; ivi_dance_buffer "names" "namesSize"])
  = Raise (NotImplementedError
             [ivi_dance_buffer "data" "bufferSize"; ivi_dance_buffer "names" "namesSize"]).
Proof. by vm_compute. Qed.

Example instantiation_of_task_creation :
  get_instantiation_lines_for_output create_task_like
  = [ "task = lib_importer.task_handle(0)";
      "read_array = numpy.zeros(array_size_in_samps, dtype=numpy.float64)";
      "new_session_initialized = c_bool32()" ].
Proof. by vm_compute. Qed.

Example return_values_of_task_creation :
  get_return_values create_task_like
  = ["task"; "read_array.tolist()"; "new_session_initialized.value"].
Proof. by vm_compute. Qed.

Example normalized_names :
  map interpreter_function_name
    ["ReadAnalogScalarF64"; "WriteDigitalU32"; "ReadBinaryUInt32"; "ReadCounterU32Ex";
     "CreateAIVoltageChan"; "GetNthTaskReadChannel"]
  = ["read_analog_scalar_f64"; "write_digital_u32"; "read_binary_uint32";
     "read_counter_u32_ex"; "create_ai_voltage_chan"; "get_nth_task_read_channel"].
Proof. by vm_compute. Qed.

(** * Further properties *)

(** ** The skip-set of ingestion *)

Lemma get_skippable_params_concat (func : Meta.function_data) :
  get_skippable_params_for_interpreter_func func =
    concat (map skip_entries_of (Meta.parameters func)).
Proof.
  unfold get_skippable_params_for_interpreter_func. cbv zeta.
  rewrite (fold_left_append _ skip_entries_of); [done|].
  intros acc p. unfold skip_entries_of. cbv zeta.
  case_decide; destruct (is_skippable_param p);
    rewrite ?app_nil_r, <- ?app_assoc; done.
Qed.

Lemma is_skippable_param_true (p : Meta.param) :
  is_skippable_param p = true ↔
  Meta.include_in_proto p = Some false
  ∧ (Meta.name p = "size" ∨ Meta.name p = "reserved").
Proof.
  unfold is_skippable_param. cbv zeta.
  destruct (Meta.include_in_proto p) as [[|]|]; simpl.
  - split; [done|]. by intros [? _].
  - case_bool_decide as Hin.
    + split; [|done]. intros _. split; [done|].
      apply elem_of_cons in Hin as [?|Hin]; [by left|].
      apply elem_of_cons in Hin as [?|Hin]; [by right|].
      by apply elem_of_nil in Hin.
    + split; [done|]. intros [_ [Hn|Hn]]; exfalso; apply Hin; rewrite Hn.
      * apply list_elem_of_here.
      * apply list_elem_of_further, list_elem_of_here.
  - split; [done|]. by intros [? _].
Qed.

Lemma skip_set_elem_of (func : Meta.function_data) (name : string) :
  Some name ∈ get_skippable_params_for_interpreter_func func ↔ skipped func name.
Proof.
  rewrite get_skippable_params_concat. unfold skipped.
  induction (Meta.parameters func) as [|p ps IH].
  - simpl. split.
    + by intros ?%elem_of_nil.
    + intros [(p & sz & Hp & _)|(p & Hp & _)]; by apply elem_of_nil in Hp.
  - cbn [map concat]. rewrite elem_of_app, IH. clear IH.
    unfold skip_entries_of at 1. cbv zeta. rewrite elem_of_app. split.
    + intros [[Hsize|Hname]|[(q & sz & Hq & H)|(q & Hq & H)]].
      * left. case_decide as Hmech; [|by apply elem_of_nil in Hsize].
        apply list_elem_of_singleton in Hsize.
        apply list_elem_of_singleton in Hmech.
        destruct (Meta.size p) as [sz|] eqn:Hsz; [|done].
        exists p, sz. simpl in *. split; [apply list_elem_of_here|]. done.
      * right. destruct (is_skippable_param p) eqn:Hskip;
          [|by apply elem_of_nil in Hname].
        apply list_elem_of_singleton in Hname. injection Hname as ->.
        apply is_skippable_param_true in Hskip as [? ?].
        exists p. split; [apply list_elem_of_here|]. done.
      * left. exists q, sz. split; [by apply list_elem_of_further|done].
      * right. exists q. split; [by apply list_elem_of_further|done].
    + intros [(q & sz & Hq & Hsz & Hmech & Hval)|(q & Hq & Hname & Hex & Hn)].
      * apply elem_of_cons in Hq as [->|Hq].
        -- left. left. rewrite Hsz. simpl. rewrite Hmech, Hval.
           rewrite decide_True by apply list_elem_of_here.
           apply list_elem_of_here.
        -- right. left. by exists q, sz.
      * apply elem_of_cons in Hq as [->|Hq].
        -- left. right.
           rewrite (proj2 (is_skippable_param_true p)) by (by rewrite Hname).
           rewrite Hname. apply list_elem_of_here.
        -- right. right. by exists q.
Qed.

(** X1. The skip-set of a catalog function holds a name exactly when the
    name is the size value of a parameter whose size mechanism is ivi-dance,
    or is the name of a parameter that is explicitly excluded from the proto
    and called [size] or [reserved].  A parameter without the
    [include_in_proto] key is never skipped for its own name, and an
    ivi-dance size without a value names nothing. *)
Theorem skip_set_characterised (func : Meta.function_data) (name : string) :
  Some name ∈ get_skippable_params_for_interpreter_func func ↔ skipped func name.
Proof. apply skip_set_elem_of. Qed.

(** ** Parameters that ingestion keeps *)

Section ingestion_parameters.
Variable camel_to_snake_case : string → list regex → string.

(** X2. Ingestion only drops parameters: every function it returns comes
    from a catalog entry that is not ignored, carries that entry's native
    name, and has as parameters a sublist of the entry's parameters, in their
    order, namely those whose name is not in the skip-set.  The size
    parameter of an ivi-dance buffer is thus never among them. *)
Theorem ingestion_keeps_unskipped_parameters (metadata : Meta.metadata) :
  Forall
    (λ x, ∃ n d,
        (n, d) ∈ Meta.functions metadata
        ∧ (n ∉ INTERPRETER_IGNORED_FUNCTIONS)
        ∧ (Meta.c_function_name (function_data x) = Some n)
        ∧ (Meta.parameters (function_data x) `sublist_of` Meta.parameters d)
        ∧ (∀ p, p ∈ Meta.parameters (function_data x) ↔
                p ∈ Meta.parameters d ∧ ¬ skipped d (Meta.name p)))
    (get_interpreter_functions camel_to_snake_case metadata).
Proof.
  rewrite get_interpreter_functions_sorted_map, sorted_Permutation.
  apply Forall_forall. intros x Hx.
  apply list_elem_of_fmap in Hx as [[n d] [-> Hitem]].
  apply list_elem_of_filter in Hitem as [Hn Hitem].
  exists n, d. cbn [ingested fst snd function_data Meta.c_function_name Meta.parameters].
  split; [done|]. split; [done|]. split; [done|].
  split; [apply sublist_filter|].
  intros p. rewrite list_elem_of_filter.
  rewrite <- (skip_set_elem_of d (Meta.name p)).
  unfold get_skippable_params_for_interpreter_func.
  cbn [Meta.parameters]. tauto.
Qed.
End ingestion_parameters.

(** ** The order of the catalog does not show *)

Lemma NoDup_fmap_elem_inj {A B} (f : A → B) (l : list A) x y :
  NoDup (map f l) → x ∈ l → y ∈ l → f x = f y → x = y.
Proof.
  induction l as [|a l IH]; intros Hnd Hx Hy Hf; [by apply elem_of_nil in Hx|].
  cbn [map] in Hnd. apply NoDup_cons in Hnd as [Ha Hnd].
  apply elem_of_cons in Hx as [->|Hx]; apply elem_of_cons in Hy as [->|Hy].
  - done.
  - exfalso. apply Ha. rewrite Hf. by apply (list_elem_of_fmap_2 f).
  - exfalso. apply Ha. rewrite <- Hf. by apply (list_elem_of_fmap_2 f).
  - by apply IH.
Qed.

Section sorted_unique.
Context {A : Type} (key : A → string).

Lemma sorted_keys_StronglySorted (l : list A) :
  StronglySorted (λ a b, String.leb a b = true) (map key (sorted key l)).
Proof.
  apply (StronglySorted_fmap key (λ x y, String.leb (key x) (key y) = true)).
  - by intros x y.
  - apply sorted_StronglySorted.
Qed.

Lemma sorted_keys_Permutation_eq (l1 l2 : list A) :
  l1 ≡ₚ l2 → map key (sorted key l1) = map key (sorted key l2).
Proof.
  intros Hperm.
  apply (StronglySorted_unique_strong (λ a b, String.leb a b = true)).
  - intros a b _ _. apply String.leb_antisym.
  - apply sorted_keys_StronglySorted.
  - apply sorted_keys_StronglySorted.
  - apply fmap_Permutation. by rewrite !sorted_Permutation.
Qed.

Lemma sorted_Permutation_eq (l1 l2 : list A) :
  l1 ≡ₚ l2 → NoDup (map key l1) → sorted key l1 = sorted key l2.
Proof.
  intros Hperm Hnd.
  apply (StronglySorted_unique_strong (λ x y, String.leb (key x) (key y) = true)).
  - intros x y Hx Hy Hxy Hyx.
    apply (NoDup_fmap_elem_inj key l1); [done| | |].
    + by rewrite <- (sorted_Permutation key l1).
    + rewrite Hperm. by rewrite <- (sorted_Permutation key l2).
    + by apply String.leb_antisym.
  - apply sorted_StronglySorted.
  - apply sorted_StronglySorted.
  - by rewrite !sorted_Permutation.
Qed.
End sorted_unique.

Section ingestion_order.
Variable camel_to_snake_case : string → list regex → string.

(** X3. Two catalogs with the same entries in a different order are
    ingested to the same sequence of normalized names; when the normalized
    names of the ingested functions are pairwise distinct, to the same
    sequence of functions. *)
Theorem ingestion_independent_of_catalog_order (m1 m2 : Meta.metadata) :
  Meta.functions m1 ≡ₚ Meta.functions m2 →
  map _function_name (get_interpreter_functions camel_to_snake_case m1) =
    map _function_name (get_interpreter_functions camel_to_snake_case m2)
  ∧ (NoDup (map _function_name (get_interpreter_functions camel_to_snake_case m1)) →
     get_interpreter_functions camel_to_snake_case m1 =
       get_interpreter_functions camel_to_snake_case m2).
Proof.
  intros Hperm. rewrite !get_interpreter_functions_sorted_map.
  assert (Hkept :
    map (ingested camel_to_snake_case)
      (filter (λ item, item.1 ∉ INTERPRETER_IGNORED_FUNCTIONS) (Meta.functions m1))
    ≡ₚ map (ingested camel_to_snake_case)
         (filter (λ item, item.1 ∉ INTERPRETER_IGNORED_FUNCTIONS) (Meta.functions m2))).
  { apply fmap_Permutation. by rewrite Hperm. }
  split.
  - by apply sorted_keys_Permutation_eq.
  - intros Hnd. apply sorted_Permutation_eq; [done|].
    eapply NoDup_Permutation_proper; [|exact Hnd].
    apply fmap_Permutation. by rewrite sorted_Permutation.
Qed.
End ingestion_order.

Lemma ingestion_independent_of_catalog_order_witness :
  map _function_name (get_interpreter_functions camel_to_snake_case sample_catalog) =
    map _function_name
      (get_interpreter_functions camel_to_snake_case sample_catalog_reversed)
  ∧ (NoDup (map _function_name
              (get_interpreter_functions camel_to_snake_case sample_catalog)) →
     get_interpreter_functions camel_to_snake_case sample_catalog =
       get_interpreter_functions camel_to_snake_case sample_catalog_reversed).
Proof.
  apply (ingestion_independent_of_catalog_order camel_to_snake_case
           sample_catalog sample_catalog_reversed).
  simpl. symmetry. apply reverse_Permutation.
Defined.

(** ** What the C call receives *)

Lemma elem_of_concat_map {A B} (f : A → list B) (l : list A) (x : A) (y : B) :
  x ∈ l → y ∈ f x → y ∈ concat (map f l).
Proof.
  intros Hx Hy. induction Hx as [x l|x a l Hx IH]; cbn [map concat];
    apply elem_of_app; auto.
Qed.

Lemma concat_map_split {A B} (f : A → list B) (l1 l2 : list A) (x : A) :
  concat (map f (l1 ++ x :: l2)) = concat (map f l1) ++ f x ++ concat (map f l2).
Proof. by rewrite map_app, concat_app. Qed.

(** X5. No parameter is left out of the C call: every [in] interpreter
    parameter is passed by its name, and every [out] interpreter parameter
    is passed by its name when it has an explicit buffer size, by reference
    when it has none. *)
Theorem every_parameter_is_passed (func : Function) :
  Forall (λ p, parameter_name p ∈ generate_interpreter_function_call_args func)
    (get_interpreter_params func)
  ∧ Forall
      (λ p, (if has_explicit_buffer_size p then parameter_name p
             else "ctypes.byref(" +:+ parameter_name p +:+ ")")
              ∈ generate_interpreter_function_call_args func)
      (get_interpreter_output_params func).
Proof.
  rewrite generate_interpreter_function_call_args_concat.
  split; apply Forall_forall; intros p Hp;
    apply list_elem_of_filter in Hp as [Hdir Hp];
    apply (elem_of_concat_map _ _ p); [done| |done|];
    apply elem_of_app; left; unfold argument_of.
  - rewrite decide_True by done. apply list_elem_of_here.
  - rewrite decide_False by (rewrite Hdir; discriminate).
    rewrite decide_True by done.
    destruct (has_explicit_buffer_size p); apply list_elem_of_here.
Qed.

Lemma recorded_supplier_elem_of params slot q :
  recorded_supplier params slot = Some q → q ∈ params.
Proof.
  unfold recorded_supplier. intros Hlast.
  apply last_Some_elem_of in Hlast.
  by apply list_elem_of_filter in Hlast as [_ ?].
Qed.

Lemma recorded_supplier_passes_size params slot q :
  recorded_supplier params slot = Some q →
  argument_of q ++ size_argument_after params q =
    [parameter_name q; size_expression q].
Proof.
  intros Hq. destruct (recorded_supplier_records _ _ _ Hq) as [[Hexp Hdir] Hslot].
  unfold argument_of, size_argument_after. rewrite Hexp, Hslot, Hq.
  rewrite (decide_True (P := parameter_name q = parameter_name q)) by done.
  destruct Hdir as [Hin|[Hout _]].
  - by rewrite decide_True.
  - rewrite decide_False by (rewrite Hout; discriminate). by rewrite decide_True.
Qed.

(** X6. A size expression directly follows its array: for every interpreter
    parameter that records a size (an [in] parameter, or an ivi-dance [out]
    parameter, with an explicit buffer size), the call arguments hold, one
    right after the other, the name of a parameter recording for the same
    size slot and that parameter's size expression. *)
Theorem size_directly_follows_array (func : Function) (p : FunctionParameter) :
  p ∈ interpreter_parameters func →
  records_size p →
  ∃ q before after,
    q ∈ interpreter_parameters func
    ∧ records_size q
    ∧ value (size q) = value (size p)
    ∧ generate_interpreter_function_call_args func =
        before ++ [parameter_name q; size_expression q] ++ after.
Proof.
  intros Hp Hrec.
  destruct (recorded_supplier (interpreter_parameters func) (value (size p)))
    as [q|] eqn:Hq.
  - destruct (recorded_supplier_records _ _ _ Hq) as [Hqrec Hslot].
    pose proof (recorded_supplier_elem_of _ _ _ Hq) as Hqin.
    destruct (list_elem_of_split _ _ Hqin) as (l1 & l2 & Hsplit).
    pose proof (recorded_supplier_passes_size _ _ _ Hq) as Hpass.
    rewrite generate_interpreter_function_call_args_concat.
    set (f := λ p, argument_of p ++ size_argument_after (interpreter_parameters func) p)
      in *.
    exists q, (concat (map f l1)), (concat (map f l2)).
    split; [done|]. split; [done|]. split; [done|].
    rewrite Hsplit, concat_map_split. subst f. cbv beta. by rewrite Hpass.
  - exfalso. unfold recorded_supplier in Hq. apply last_None in Hq.
    assert (p ∈ filter (λ q, records_size q ∧ value (size q) = value (size p))
                  (interpreter_parameters func)) as Hin
      by (by apply list_elem_of_filter).
    rewrite Hq in Hin. by apply elem_of_nil in Hin.
Qed.

Lemma size_directly_follows_array_witness :
  ∃ q before after,
    q ∈ interpreter_parameters two_arrays_one_size
    ∧ records_size q
    ∧ value (size q) = value (size (input_array "a" "arraySize"))
    ∧ generate_interpreter_function_call_args two_arrays_one_size =
        before ++ [parameter_name q; size_expression q] ++ after.
Proof.
  apply (size_directly_follows_array two_arrays_one_size (input_array "a" "arraySize")).
  - apply list_elem_of_here.
  - split; [reflexivity|]. left. reflexivity.
Defined.

(** X7. When the interpreter parameters have pairwise distinct names, a
    parameter is followed by a size expression exactly when it is itself the
    last parameter recording for its size slot, and then by its own: each
    recorded slot is passed once. *)
Theorem distinct_names_one_size_per_slot (func : Function) :
  NoDup (map parameter_name (interpreter_parameters func)) →
  generate_interpreter_function_call_args func =
    concat
      (map (λ p, argument_of p ++
                 if decide (recorded_supplier (interpreter_parameters func)
                              (value (size p)) = Some p)
                 then [size_expression p] else [])
         (interpreter_parameters func)).
Proof.
  intros Hnd. rewrite generate_interpreter_function_call_args_concat.
  f_equal. apply map_ext_in. intros p Hp%list_elem_of_In. f_equal.
  unfold size_argument_after.
  destruct (recorded_supplier (interpreter_parameters func) (value (size p)))
    as [q|] eqn:Hq.
  - destruct (recorded_supplier_records _ _ _ Hq) as [[Hexp _] _].
    pose proof (recorded_supplier_elem_of _ _ _ Hq) as Hqin.
    destruct (decide (parameter_name p = parameter_name q)) as [Hname|Hname].
    + assert (p = q) as -> by (by apply (NoDup_fmap_elem_inj parameter_name _ p q Hnd)).
      rewrite Hexp. by rewrite decide_True.
    + rewrite decide_False by (intros [= ->]; done).
      by destruct (has_explicit_buffer_size p).
  - rewrite decide_False by done. by destruct (has_explicit_buffer_size p).
Qed.

Lemma distinct_names_one_size_per_slot_witness :
  generate_interpreter_function_call_args two_arrays_one_size =
    concat
      (map (λ p, argument_of p ++
                 if decide (recorded_supplier (interpreter_parameters two_arrays_one_size)
                              (value (size p)) = Some p)
                 then [size_expression p] else [])
         (interpreter_parameters two_arrays_one_size)).
Proof.
  apply (distinct_names_one_size_per_slot two_arrays_one_size).
  apply (bool_decide_unpack _). vm_compute. reflexivity.
Defined.

(** ** No [_u_int] is left in a normalized name *)

Lemma startswith_cons a p b s :
  startswith (String a p) (String b s) = Ascii.eqb a b && startswith p s.
Proof. reflexivity. Qed.

Lemma replace_u_int_copies_char d w s :
  Ascii.eqb d "_" = false →
  startswith (String d w) (replace_from "_u_int" "_uint" 0 s) = true →
  ∃ s', s = String d s' ∧ startswith w (replace_from "_u_int" "_uint" 0 s') = true.
Proof.
  intros Hd. destruct s as [|c s]; [done|]. cbn [replace_from].
  destruct (startswith "_u_int" (String c s)).
  - string_simpl. rewrite startswith_cons, Hd. done.
  - rewrite startswith_cons. intros [Hdc Hw]%andb_true_iff.
    apply Ascii.eqb_eq in Hdc as <-. eauto.
Qed.

Lemma replace_u_int_copies_separator s :
  startswith "_int" (replace_from "_u_int" "_uint" 0 s) = true →
  ∃ s', s = String "_" s' ∧ startswith "int" (replace_from "_u_int" "_uint" 0 s') = true.
Proof.
  destruct s as [|c s]; [done|]. cbn [replace_from].
  destruct (startswith "_u_int" (String c s)).
  - string_simpl. by rewrite !startswith_cons.
  - rewrite startswith_cons. intros [Hdc Hw]%andb_true_iff.
    apply Ascii.eqb_eq in Hdc as <-. eauto.
Qed.

Lemma replace_u_int_no_new_occurrence c s :
  startswith "_u_int" (String c s) = false →
  startswith "_u_int" (String c (replace_from "_u_int" "_uint" 0 s)) = false.
Proof.
  intros Hno. apply not_true_is_false. intros Hyes. rewrite startswith_cons in Hyes.
  apply andb_true_iff in Hyes as [Hc Hyes]. apply Ascii.eqb_eq in Hc as <-.
  apply replace_u_int_copies_char in Hyes as (s1 & -> & Hyes); [|done].
  apply replace_u_int_copies_separator in Hyes as (s2 & -> & Hyes).
  apply replace_u_int_copies_char in Hyes as (s3 & -> & Hyes); [|done].
  apply replace_u_int_copies_char in Hyes as (s4 & -> & Hyes); [|done].
  apply replace_u_int_copies_char in Hyes as (s5 & -> & Hyes); [|done].
  by vm_compute in Hno.
Qed.

Lemma replace_u_int_complete s :
  ∀ skip, str_contains "_u_int" (replace_from "_u_int" "_uint" skip s) = false.
Proof.
  induction s as [|c s IH]; intros skip; [done|].
  destruct skip as [|k]; cbn [replace_from]; [|apply IH].
  destruct (startswith "_u_int" (String c s)) eqn:Hstart.
  - change (String.length "_u_int" - 1) with 5. string_simpl.
    cbn [str_contains startswith]. rewrite (IH 5). done.
  - cbn [str_contains]. rewrite (IH 0).
    by rewrite (replace_u_int_no_new_occurrence c s Hstart).
Qed.

Lemma str_contains_occurrence (old s : string) :
  str_contains old s = true ↔ ∃ before after, s = before +:+ old +:+ after.
Proof.
  split.
  - induction s as [|c s IH]; cbn [str_contains].
    + rewrite orb_false_r. intros [after ->]%startswith_split. by exists "", after.
    + intros [Hstart|Hrest]%orb_true_iff.
      * apply startswith_split in Hstart as [after ->]. by exists "", after.
      * destruct (IH Hrest) as (before & after & ->). by exists (String c before), after.
  - intros (before & after & ->). induction before as [|c before IH]; string_simpl.
    + assert (startswith old (old +:+ after) = true) as Hstart.
      { clear. induction old as [|a old IH]; string_simpl; [done|].
        rewrite startswith_cons, IH. by rewrite Ascii.eqb_refl. }
      destruct (old +:+ after); cbn [str_contains]; by rewrite Hstart.
    + cbn [str_contains]. rewrite IH. apply orb_true_r.
Qed.

(** X4. Whatever the camel-to-snake helper returns, the normalized
    function name holds no [_u_int]: replacing [_u_int] by [_uint] from the
    left leaves no occurrence behind and makes no new one. *)
Theorem normalized_name_has_no_u_int (camel_to_snake_case : string → list regex → string)
    (function_name : string) :
  str_contains "_u_int" (normalized_function_name camel_to_snake_case function_name)
    = false
  ∧ ∀ before after,
      normalized_function_name camel_to_snake_case function_name
        ≠ before +:+ "_u_int" +:+ after.
Proof.
  assert (Hno : str_contains "_u_int"
                  (normalized_function_name camel_to_snake_case function_name) = false).
  { unfold normalized_function_name, str_replace. cbv zeta.
    apply replace_u_int_complete. }
  split; [exact Hno|]. intros before after Heq.
  assert (str_contains "_u_int"
            (normalized_function_name camel_to_snake_case function_name) = true) as Hyes
    by (apply str_contains_occurrence; eauto).
  congruence.
Qed.

(** ** First and only elements of a selection *)

Lemma filter_cons_inv {A} (P : A → Prop) `{!∀ x, Decision (P x)} (l : list A) x r :
  filter P l = x :: r →
  ∃ l1 l2, l = l1 ++ x :: l2 ∧ P x ∧ Forall (λ y, ¬ P y) l1 ∧ filter P l2 = r.
Proof.
  induction l as [|a l IH]; [done|]. rewrite filter_cons.
  destruct (decide (P a)) as [Ha|Ha].
  - intros [= -> <-]. exists [], l. by repeat split.
  - intros Hl. destruct (IH Hl) as (l1 & l2 & -> & Hx & Hl1 & Hl2).
    exists (a :: l1), l2. repeat split; [done| |done]. by constructor.
Qed.

Lemma filter_nil_Forall {A} (P : A → Prop) `{!∀ x, Decision (P x)} (l : list A) :
  filter P l = [] → Forall (λ y, ¬ P y) l.
Proof.
  induction l as [|a l IH]; [by constructor|]. rewrite filter_cons.
  destruct (decide (P a)); [done|]. intros Hl. constructor; auto.
Qed.

(** X8. [get_output_param_with_ivi_dance_mechanism] returns a parameter
    only when it is the one output of the base parameters with an explicit
    buffer size and the ivi-dance mechanism; it returns [None] only when
    there is no such output; and it raises only when two of them stand at
    different places of the base parameters, the exception carrying all of
    them. *)
Theorem ivi_dance_output_is_the_only_one (func : Function) :
  match get_output_param_with_ivi_dance_mechanism func with
  | Return (Some p) =>
      ∃ before after,
        base_parameters func = before ++ p :: after
        ∧ ivi_dance_output p
        ∧ Forall (λ q, ¬ ivi_dance_output q) before
        ∧ Forall (λ q, ¬ ivi_dance_output q) after
  | Return None => Forall (λ q, ¬ ivi_dance_output q) (base_parameters func)
  | Raise (NotImplementedError offending) =>
      offending = filter ivi_dance_output (base_parameters func)
      ∧ ∃ l1 p1 l2 p2 l3,
          base_parameters func = l1 ++ p1 :: l2 ++ p2 :: l3
          ∧ ivi_dance_output p1 ∧ ivi_dance_output p2
  end.
Proof.
  rewrite get_output_param_with_ivi_dance_mechanism_cases.
  change (ivi_dance_outputs func) with (filter ivi_dance_output (base_parameters func)).
  destruct (filter ivi_dance_output (base_parameters func)) as [|p [|q r]] eqn:Hf.
  - exact (filter_nil_Forall _ _ Hf).
  - apply filter_cons_inv in Hf as (l1 & l2 & Hbase & Hp & Hl1 & Hl2).
    exists l1, l2. repeat split; try done; try apply Hp.
    exact (filter_nil_Forall _ _ Hl2).
  - split; [done|].
    apply filter_cons_inv in Hf as (l1 & l2 & Hbase & Hp & Hl1 & Hl2).
    apply filter_cons_inv in Hl2 as (l3 & l4 & -> & Hq & _ & _).
    by exists l1, p, l3, q, l4.
Qed.

(** ** Signature *)

Lemma get_interpreter_parameter_signature_concat (is_python_factory : bool)
    (params : list FunctionParameter) :
  get_interpreter_parameter_signature is_python_factory params =
    String.concat ", "
      ((if is_python_factory then [] else ["self"]) ++
       map parameter_name (filter (λ p, type p ≠ "") params)).
Proof.
  unfold get_interpreter_parameter_signature. cbv zeta. f_equal.
  rewrite (fold_left_append _ (λ p, if decide (type p ≠ "") then [parameter_name p] else [])).
  - f_equal; [by destruct is_python_factory|].
    induction params as [|p ps IH]; [done|]. cbn [map concat].
    rewrite filter_cons. case_decide; cbn [map app]; by rewrite IH.
  - intros acc p. case_decide; by rewrite ?app_nil_r.
Qed.

(** X9. The signature is the comma-separated list of [self], unless the
    function is a Python factory, and of the names of the parameters that
    have a type, in their order; parameters without a type are left out.
    So when no parameter has a type the method signature is [self] alone and
    the factory signature is empty, and otherwise the method signature is
    [self], a comma, and the factory signature. *)
Theorem signature_of_method_and_factory (is_python_factory : bool)
    (params : list FunctionParameter) :
  get_interpreter_parameter_signature is_python_factory params =
    String.concat ", "
      ((if is_python_factory then [] else ["self"]) ++
       map parameter_name (filter (λ p, type p ≠ "") params))
  ∧ if decide (Forall (λ p, type p = "") params) then
      get_interpreter_parameter_signature false params = "self"
      ∧ get_interpreter_parameter_signature true params = ""
    else
      get_interpreter_parameter_signature false params =
        "self, " +:+ get_interpreter_parameter_signature true params.
Proof.
  split; [apply get_interpreter_parameter_signature_concat|].
  rewrite !get_interpreter_parameter_signature_concat.
  destruct (filter (λ p, type p ≠ "") params) as [|p ps] eqn:Hf.
  - rewrite decide_True; [done|].
    apply filter_nil_Forall in Hf. eapply Forall_impl; [exact Hf|].
    intros p Hp. cbv beta in Hp. by destruct (decide (type p = "")).
  - rewrite decide_False; [done|].
    intros Hall. assert (p ∈ filter (λ p, type p ≠ "") params) as Hp
      by (rewrite Hf; apply list_elem_of_here).
    apply list_elem_of_filter in Hp as [Hty Hp].
    rewrite Forall_forall in Hall. by apply Hty, Hall.
Qed.

(** ** Response parameters *)

Lemma get_response_parameters_concat (output_parameters : list FunctionParameter) :
  get_response_parameters output_parameters =
    String.concat ", "
      (map (λ p, "response." +:+ parameter_name p)
         (filter (λ p, repeating_argument p = false) output_parameters)).
Proof.
  unfold get_response_parameters. cbv zeta. f_equal.
  rewrite (fold_left_append _
    (λ p, if negb (repeating_argument p) then ["response." +:+ parameter_name p] else [])).
  - induction output_parameters as [|p ps IH]; [done|]. cbn [map concat app].
    rewrite filter_cons.
    destruct (repeating_argument p); simpl.
    + exact IH.
    + f_equal. exact IH.
  - intros acc p. destruct (repeating_argument p); by rewrite ?app_nil_r.
Qed.

(** X13. Repeating outputs are not read from the gRPC response: the
    response parameters are the comma-separated list of [response.name] for
    the output parameters that are not repeating, in their order.  So they
    are empty exactly when every output parameter is a repeating one, and
    otherwise start with the first output that is not repeating. *)
Theorem response_parameters_skip_repeating (output_parameters : list FunctionParameter) :
  get_response_parameters output_parameters =
    String.concat ", "
      (map (λ p, "response." +:+ parameter_name p)
         (filter (λ p, repeating_argument p = false) output_parameters))
  ∧ (get_response_parameters output_parameters = ""
     ↔ Forall (λ p, repeating_argument p = true) output_parameters)
  ∧ match filter (λ p, repeating_argument p = false) output_parameters with
    | [] => get_response_parameters output_parameters = ""
    | p :: _ =>
        startswith ("response." +:+ parameter_name p)
          (get_response_parameters output_parameters) = true
    end.
Proof.
  split; [apply get_response_parameters_concat|].
  rewrite get_response_parameters_concat.
  assert (Hprefix : ∀ x after, startswith x (x +:+ after) = true).
  { intros x after. induction x as [|a x IH]; string_simpl; [done|].
    rewrite startswith_cons, IH. by rewrite Ascii.eqb_refl. }
  destruct (filter (λ p, repeating_argument p = false) output_parameters)
    as [|p ps] eqn:Hf.
  - split; [|done]. split; [|done]. intros _.
    apply filter_nil_Forall in Hf. eapply Forall_impl; [exact Hf|].
    intros p Hp. cbv beta in Hp. by destruct (repeating_argument p).
  - assert (p ∈ filter (λ p, repeating_argument p = false) output_parameters) as Hp
      by (rewrite Hf; apply list_elem_of_here).
    apply list_elem_of_filter in Hp as [Hrep Hp].
    split; [split|].
    + cbn [map String.concat]. destruct (map _ ps); string_simpl; discriminate.
    + intros Hall. rewrite Forall_forall in Hall. specialize (Hall p Hp). congruence.
    + cbn [map String.concat]. destruct (map _ ps).
      * rewrite <- (string_app_nil_r ("response." +:+ parameter_name p)) at 2.
        apply Hprefix.
      * apply Hprefix.
Qed.

(** ** Callback parameter types *)

(** X14. The callback parameter types are returned only when every
    parameter dictionary has the key [ctypes_data_type], one type per
    parameter in their order; a dictionary without the key makes the
    comprehension fail with [KeyError]. *)
Theorem callback_types_need_every_key (params : list (gmap string string)) :
  match get_callback_param_data_types params with
  | Some types => Forall2 (λ p t, p !! "ctypes_data_type" = Some t) params types
  | None => Exists (λ p, p !! "ctypes_data_type" = None) params
  end.
Proof.
  unfold get_callback_param_data_types.
  destruct (mapM _ params) as [types|] eqn:Hm.
  - by apply mapM_Some in Hm.
  - by apply mapM_None in Hm.
Qed.

(** ** Compound parameters and the gRPC request *)

Section compound_properties.
Variable is_compound_type : FunctionParameter → bool.
Variable is_enum : FunctionParameter → bool.

Lemma get_input_arguments_for_compound_params_cases (func : Function) :
  get_input_arguments_for_compound_params is_compound_type func =
    match filter (λ x, is_compound_type x = true) (base_parameters func) with
    | [] => []
    | _ :: _ =>
        map parameter_name
          (filter (λ p, direction p = "in" ∧ repeating_argument p = true)
             (base_parameters func))
    end.
Proof.
  unfold get_input_arguments_for_compound_params.
  destruct (filter _ (base_parameters func)) as [|x r]; [done|]. cbn [any].
  rewrite (fold_left_append _
    (λ p, if bool_decide (direction p = "in") && repeating_argument p
          then [parameter_name p] else [])).
  - induction (base_parameters func) as [|p ps IH]; [done|]. cbn [map concat app].
    rewrite filter_cons. cbn [app] in IH.
    destruct (decide (direction p = "in")) as [Hin|Hin].
    + rewrite (bool_decide_eq_true_2 _ Hin). cbn [andb].
      destruct (repeating_argument p).
      * rewrite decide_True by done. cbn [map app]. by rewrite IH.
      * rewrite decide_False by (by intros [_ ?]). by rewrite IH.
    + rewrite (bool_decide_eq_false_2 _ Hin). cbn [andb].
      rewrite decide_False by (by intros [? _]). by rewrite IH.
  - intros acc p.
    destruct (bool_decide (direction p = "in") && repeating_argument p);
      by rewrite ?app_nil_r.
Qed.

(** X10. [get_compound_parameter] returns the first parameter flagged as
    a compound type, and [None] only when no parameter is flagged.  On the
    base parameters of a function it decides the compound inputs: without a
    compound parameter there are none, with one they are the names of the
    repeating [in] base parameters, in their order. *)
Theorem compound_parameter_decides_compound_inputs (func : Function) :
  match get_compound_parameter is_compound_type (base_parameters func) with
  | Some x =>
      (∃ before after,
         base_parameters func = before ++ x :: after
         ∧ is_compound_type x = true
         ∧ Forall (λ y, is_compound_type y ≠ true) before)
      ∧ get_input_arguments_for_compound_params is_compound_type func =
          map parameter_name
            (filter (λ p, direction p = "in" ∧ repeating_argument p = true)
               (base_parameters func))
  | None =>
      Forall (λ y, is_compound_type y ≠ true) (base_parameters func)
      ∧ get_input_arguments_for_compound_params is_compound_type func = []
  end.
Proof.
  rewrite get_input_arguments_for_compound_params_cases.
  unfold get_compound_parameter.
  destruct (filter (λ x, is_compound_type x = true) (base_parameters func))
    as [|x r] eqn:Hf; cbn [head].
  - split; [|done]. exact (filter_nil_Forall _ _ Hf).
  - split; [|done].
    apply filter_cons_inv in Hf as (l1 & l2 & Hbase & Hx & Hl1 & _).
    by exists l1, l2.
Qed.

Lemma grpc_params_before_set (func : Function) (params : list FunctionParameter) :
  fold_left
    (λ grpc_params param,
       if decide (parameter_name param
                    ∉ get_input_arguments_for_compound_params is_compound_type func) then
         if is_enum param then
           grpc_params ++ [parameter_name param +:+ "_raw=" +:+ parameter_name param]
         else
           grpc_params ++ [parameter_name param +:+ "=" +:+ parameter_name param]
       else grpc_params)
    params [] =
  map (grpc_entry is_enum)
    (filter (λ p, parameter_name p
                    ∉ get_input_arguments_for_compound_params is_compound_type func)
       params).
Proof.
  rewrite (fold_left_append _
    (λ p, if decide (parameter_name p
                       ∉ get_input_arguments_for_compound_params is_compound_type func)
          then [grpc_entry is_enum p] else [])).
  - cbn [app]. induction params as [|p ps IH]; [done|]. cbn [map concat].
    rewrite filter_cons. case_decide; cbn [map app]; by rewrite IH.
  - intros acc p. unfold grpc_entry.
    case_decide; [|by rewrite app_nil_r]. by destruct (is_enum p).
Qed.

Lemma strictly_sorted (l : list string) :
  StronglySorted (λ a b, String.leb a b = true) l → NoDup l →
  StronglySorted (λ a b, String.ltb a b = true) l.
Proof.
  induction 1 as [|x l Hl IH Hx]; intros Hnd; [constructor|].
  apply NoDup_cons in Hnd as [Hnotin Hnd].
  constructor; [by apply IH|].
  rewrite Forall_forall in Hx. apply Forall_forall. intros y Hy.
  specialize (Hx y Hy). unfold String.leb in Hx. unfold String.ltb.
  destruct (String.compare x y) eqn:Hcmp; [|done|done].
  apply String.compare_eq_iff in Hcmp as ->. done.
Qed.

(** X11. The gRPC call parameters are joined from a list in strictly
    ascending order, so without repetition, that holds exactly the entries
    of the given parameters whose name is not a compound input of the
    function: [name_raw=name] for an enum parameter, [name=name] for any
    other.  A compound input is never passed on its own. *)
Theorem grpc_call_params_sorted_without_compound_inputs (func : Function)
    (params : list FunctionParameter) :
  let entries := grpc_interpreter_call_param_list is_compound_type is_enum func params in
  get_grpc_interpreter_call_params is_compound_type is_enum func params =
    String.concat ", " entries
  ∧ StronglySorted (λ a b, String.ltb a b = true) entries
  ∧ ∀ e, e ∈ entries ↔
         ∃ p, p ∈ params
              ∧ (parameter_name p
                   ∉ get_input_arguments_for_compound_params is_compound_type func)
              ∧ e = grpc_entry is_enum p.
Proof.
  intros entries. subst entries. split; [done|].
  unfold grpc_interpreter_call_param_list. cbv zeta. rewrite grpc_params_before_set.
  split.
  - apply strictly_sorted; [apply (sorted_StronglySorted (λ x, x))|].
    eapply NoDup_Permutation_proper; [apply sorted_Permutation|]. apply NoDup_elements.
  - intros e. rewrite sorted_Permutation, elem_of_elements, elem_of_list_to_set.
    rewrite list_elem_of_fmap. split.
    + intros (p & -> & Hp). apply list_elem_of_filter in Hp as [Hname Hp]. eauto.
    + intros (p & Hp & Hname & ->). exists p. split; [done|].
      by apply list_elem_of_filter.
Qed.

(** X12. The gRPC call parameters depend on which parameters are given,
    not on their order or on how often one is given. *)
Theorem grpc_call_params_independent_of_order (func : Function)
    (params1 params2 : list FunctionParameter) :
  (∀ p, p ∈ params1 ↔ p ∈ params2) →
  get_grpc_interpreter_call_params is_compound_type is_enum func params1 =
    get_grpc_interpreter_call_params is_compound_type is_enum func params2.
Proof.
  intros Hsame. unfold get_grpc_interpreter_call_params, grpc_interpreter_call_param_list.
  cbv zeta. rewrite !grpc_params_before_set. do 3 f_equal.
  apply set_eq. intros e. rewrite !elem_of_list_to_set, !list_elem_of_fmap.
  split; intros (p & -> & Hp); exists p; (split; [done|]);
    apply list_elem_of_filter in Hp as [Hname Hp]; apply list_elem_of_filter;
    (split; [done|]); by apply Hsame.
Qed.
End compound_properties.

Lemma grpc_call_params_independent_of_order_witness :
  get_grpc_interpreter_call_params
    (λ p, bool_decide (type p = "struct")) (λ _, false) compound_like
    [input_scalar "task"; input_scalar "timeout"] =
  get_grpc_interpreter_call_params
    (λ p, bool_decide (type p = "struct")) (λ _, false) compound_like
    [input_scalar "timeout"; input_scalar "task"; input_scalar "timeout"].
Proof.
  apply (grpc_call_params_independent_of_order
           (λ p, bool_decide (type p = "struct")) (λ _, false) compound_like).
  intros p. rewrite !elem_of_cons, !elem_of_nil. tauto.
Defined.

(** ** Sample runs of the further helpers *)

Example signature_of_inputs :
  get_interpreter_parameter_signature false (get_interpreter_params create_task_like)
  = "self, session_name"
  ∧ get_interpreter_parameter_signature true (get_interpreter_params create_task_like)
    = "session_name".
Proof. by vm_compute. Qed.

Example grpc_params_of_compound_function :
  get_input_arguments_for_compound_params
    (λ p, bool_decide (type p = "struct")) compound_like
  = ["channel_names"; "power_up_states"]
  ∧ get_grpc_interpreter_call_params
      (λ p, bool_decide (type p = "struct")) (λ p, bool_decide (type p = "int32"))
      compound_like (base_parameters compound_like)
    = "channels=channels, task_raw=task".
Proof. by vm_compute. Qed.

Example response_parameters_of_outputs :
  get_response_parameters (get_interpreter_output_params create_task_like)
  = "response.task, response.read_array, response.new_session_initialized".
Proof. by vm_compute. Qed.

Example callback_types_with_a_missing_key :
  get_callback_param_data_types
    [ {[ "ctypes_data_type" := "ctypes.c_int" ]}; {[ "name" := "callback_data" ]} ]
  = None.
Proof. by vm_compute. Qed.
